(** * ChirpChirp core API: the request handlers of [src/index.ts]

    A shallow embedding of the four read handlers ([/images], [/images/:id],
    [/images/:id/attributions], [/species]) together with the part of the
    storage client they rely on.  The store is a read-only pair of tables;
    every query a handler issues is recorded in a log, so that statements of
    the form "this query is never issued" can be read off a run. *)

From Stdlib Require Import ZArith QArith String Ascii.
From stdpp Require Import base decidable option list gmap sorting.

Local Open Scope Z_scope.
#[local] Set Warnings "-clear-no-such-hyp".

(** ** Stable sorting

    Both the JavaScript array sort and the ordering the store applies to a
    result set are modelled by one stable insertion sort; [le x y] says that
    [x] may stay in front of [y]. *)

Section StableSort.
Context {A : Type} (le : A → A → bool).

Fixpoint sort_insert (x : A) (l : list A) : list A :=
  match l with
  | y :: l' => if le x y then x :: l else y :: sort_insert x l'
  | [] => [x]
  end.

Definition stable_sort (l : list A) : list A := foldr sort_insert [] l.
End StableSort.

(** ** JavaScript strings

    A JavaScript string is a sequence of UTF-16 code units. *)

Module JS.

Definition jsstring := list N.

Definition js (s : string) : jsstring :=
  (λ c, N_of_ascii c) <$> list_ascii_of_string s.

(** [WhiteSpace] and [LineTerminator] code points, the set that
    [String.prototype.trim] and [parseInt] strip. *)
Definition is_white_space (c : N) : bool :=
  bool_decide (c ∈ [0x09; 0x0A; 0x0B; 0x0C; 0x0D; 0x20; 0xA0; 0x1680;
                    0x2028; 0x2029; 0x202F; 0x205F; 0x3000; 0xFEFF]%N)
  || ((0x2000 <=? c)%N && (c <=? 0x200A)%N).

Fixpoint trimStart (s : jsstring) : jsstring :=
  match s with
  | c :: s' => if is_white_space c then trimStart s' else s
  | [] => []
  end.

Definition trimEnd (s : jsstring) : jsstring := reverse (trimStart (reverse s)).

Definition trim (s : jsstring) : jsstring := trimEnd (trimStart s).

(** Truthiness of a string value: every string but the empty one. *)
Definition truthy (s : jsstring) : bool :=
  match s with [] => false | _ => true end.

(** [x || d] on a possibly undefined string. *)
Definition str_or (x : option jsstring) (d : jsstring) : jsstring :=
  match x with
  | Some s => if truthy s then s else d
  | None => d
  end.

(** *** [parseInt] with no radix argument

    The result is [None] for NaN.  JavaScript numbers are doubles: the
    integer returned here is the mathematical value of the digits, which is
    what [parseInt] yields up to 2^53. *)

Definition digit_value (radix : Z) (c : N) : option Z :=
  let v :=
    if ((0x30 <=? c) && (c <=? 0x39))%N then Some (Z.of_N c - 0x30)
    else if ((0x61 <=? c) && (c <=? 0x7A))%N then Some (Z.of_N c - 0x61 + 10)
    else if ((0x41 <=? c) && (c <=? 0x5A))%N then Some (Z.of_N c - 0x41 + 10)
    else None in
  match v with
  | Some d => if d <? radix then Some d else None
  | None => None
  end.

(** The longest prefix of radix digits, accumulated left to right; [None]
    when that prefix is empty. *)
Fixpoint parse_digits (radix : Z) (acc : option Z) (s : jsstring) : option Z :=
  match s with
  | c :: s' =>
      match digit_value radix c with
      | Some d => parse_digits radix (Some (default 0 acc * radix + d)) s'
      | None => acc
      end
  | [] => acc
  end.

Definition parseInt (input : option jsstring) : option Z :=
  (* ToString(undefined) is "undefined", which has no leading digit *)
  match input with
  | None => None
  | Some inputString =>
      let str := trimStart inputString in
      let '(sign, str) :=
        match str with
        | 0x2D%N :: str' => (-1, str')
        | 0x2B%N :: str' => (1, str')
        | _ => (1, str)
        end in
      let '(R, str) :=
        match str with
        | 0x30%N :: 0x78%N :: str' => (16, str')
        | 0x30%N :: 0x58%N :: str' => (16, str')
        | _ => (10, str)
        end in
      (λ mathInt, sign * mathInt) <$> parse_digits R None str
  end.

(** [parseInt(x) || d]: NaN, [0] and [-0] are falsy. *)
Definition num_or (x : option Z) (d : Z) : Z :=
  match x with
  | Some n => if decide (n = 0) then d else n
  | None => d
  end.

(** [Math.ceil(a / b)] for integers [a] and [b ≠ 0]. *)
Definition ceil_div (a b : Z) : Z := - ((- a) / b).

(** *** [Array.prototype.sort]

    The sort is stable: an element moves in front of another only when the
    comparator returns a positive number for the pair in the other order. *)

Definition Array_sort {A} (compareFn : A → A → Z) : list A → list A :=
  stable_sort (λ x y, bool_decide (compareFn x y ≤ 0)).

(** *** Own-property order of an ordinary object

    An object built by assignments lists its array-index keys first, in
    ascending numeric order, and then the other string keys in the order in
    which they were created.  An object used as a table is kept as the list
    of its entries in creation order; [Object_entries] applies the
    reordering. *)

Fixpoint canonical_digits (acc : Z) (s : jsstring) : option Z :=
  match s with
  | c :: s' =>
      if ((0x30 <=? c) && (c <=? 0x39))%N
      then canonical_digits (acc * 10 + (Z.of_N c - 0x30)) s'
      else None
  | [] => Some acc
  end.

Definition array_index (k : jsstring) : option Z :=
  match k with
  | [] => None
  | [0x30%N] => Some 0
  | 0x30%N :: _ => None
  | _ => match canonical_digits 0 k with
         | Some n => if decide (n < 2 ^ 32 - 1) then Some n else None
         | None => None
         end
  end.

Section Object.
Context {V : Type}.

Fixpoint obj_get (o : list (jsstring * V)) (k : jsstring) : option V :=
  match o with
  | (k', v') :: o' => if decide (k' = k) then Some v' else obj_get o' k
  | [] => None
  end.

(** [o[k] = v]: overwrite in place, or create the key at the end. *)
Fixpoint obj_set (o : list (jsstring * V)) (k : jsstring) (v : V)
  : list (jsstring * V) :=
  match o with
  | (k', v') :: o' =>
      if decide (k' = k) then (k, v) :: o' else (k', v') :: obj_set o' k v
  | [] => [(k, v)]
  end.

Definition Object_entries (o : list (jsstring * V)) : list (jsstring * V) :=
  Array_sort (λ a b, default 0 (array_index a.1) - default 0 (array_index b.1))
             (filter (λ e, is_Some (array_index e.1)) o)
  ++ filter (λ e, ¬ is_Some (array_index e.1)) o.
End Object.

(** *** Numbers, strings and the members an object literal inherits

    The values a counter holds: a number, or a string once [+] has met
    something that is not a number. *)

Inductive value :=
| Num (n : Z)
| Str (s : jsstring).

(** ToNumber.  A string reads as a number when, trimmed, it is empty or an
    optionally signed run of decimal digits, and as NaN ([None]) otherwise;
    the other numeric spellings (fraction, exponent, radix prefix,
    [Infinity]) are left out, no counter holds one. *)
Definition to_number (v : value) : option Z :=
  match v with
  | Num n => Some n
  | Str s =>
      match trim s with
      | [] => Some 0
      | 0x2D%N :: ((_ :: _) as digits) => Z.opp <$> canonical_digits 0 digits
      | 0x2B%N :: ((_ :: _) as digits) => canonical_digits 0 digits
      | digits => canonical_digits 0 digits
      end
  end.

(** [a - b], [None] for NaN. *)
Definition minus (a b : value) : option Z :=
  match to_number a, to_number b with
  | Some x, Some y => Some (x - y)
  | _, _ => None
  end.

(** The text of a built-in function, as the engine of the deployed runtime
    prints it; only its being a non-empty, non-numeric string matters. *)
Definition native_source (name : jsstring) : jsstring :=
  js "function " ++ name ++ js "() {" ++ [0x0A%N] ++ js "    [native code]"
  ++ [0x0A%N] ++ js "}".

(** A lookup on an object literal that has no own property [k] falls
    through to [Object.prototype].  [inherited k] is the string that the
    member found there turns into under [+], if there is one: the functions
    give their source text, the [__proto__] accessor gives the prototype
    object itself. *)
Definition inherited (k : jsstring) : option jsstring :=
  if decide (k = js "__proto__") then Some (js "[object Object]")
  else if decide (k = js "constructor") then Some (native_source (js "Object"))
  else if decide (k ∈ [js "toString"; js "toLocaleString"; js "valueOf";
                       js "hasOwnProperty"; js "isPrototypeOf";
                       js "propertyIsEnumerable"; js "__defineGetter__";
                       js "__defineSetter__"; js "__lookupGetter__";
                       js "__lookupSetter__"])
  then Some (native_source k)
  else None.

(** [(o[k] || 0) + 1] on an object literal [o]: an own number is
    incremented, an own string or an inherited member is truthy and gets
    "1" appended to its text, a missing key counts from 0. *)
Definition or_zero_plus_one (o : list (jsstring * value)) (k : jsstring)
  : value :=
  match obj_get o k with
  | Some (Num n) => Num (num_or (Some n) 0 + 1)
  | Some (Str s) => if truthy s then Str (s ++ js "1") else Num 1
  | None =>
      match inherited k with
      | Some text => Str (text ++ js "1")
      | None => Num 1
      end
  end.

(** [o[k] = v] on an object literal, for a [v] that is no object: the
    [__proto__] setter ignores it, any other key becomes or stays an own
    property. *)
Definition assign (o : list (jsstring * value)) (k : jsstring) (v : value)
  : list (jsstring * value) :=
  if decide (k = js "__proto__") then o else obj_set o k v.

End JS.

Import JS.

(** ** Data model (the [Types] section of the source)

    Instants ([taken_on], [stored_on], the clock) are integers, milliseconds
    since the epoch; the store compares them as instants. *)

Record Image := {
  id : jsstring;
  taken_on : Z;
  stored_on : Z;
  file_name : jsstring;
  local_file_name : jsstring;
  image_size : Z;
  image_url : jsstring;
  download_url : jsstring;
  enhanced_image_url : option jsstring;
  camera_id : jsstring;
  camera_name : jsstring;
  modem_meid : jsstring;
  latitude : Q;
  longitude : Q;
  is_video : bool;
  video_url : option jsstring;
  user_id : jsstring;
  is_favorite : bool;
  temperature : option Q;
  moon_phase : option jsstring;
  tags : option (list jsstring)
}.

(** The handlers guard every use of [species] against a missing value, so
    the column is read as nullable. *)
Record Attribution := {
  image_id : jsstring;
  model_version : jsstring;
  species : option jsstring;
  confidence : Q;
  extra : option jsstring
}.

(** [ImageWithAttributions extends Image]: the image's own fields, spread,
    plus [attributions]. *)
Record ImageWithAttributions := {
  image : Image;
  attributions : list Attribution
}.

(** ** The store and its client *)

Record Store := {
  images_table : list Image;
  attributions_table : list Attribution
}.

Inductive StoreQuery :=
| CountImages (gte_taken_on : option Z)
| SelectImages (gte_taken_on : option Z) (from to : Z)
| SelectAttributionsIn (image_ids : list jsstring)
| SelectImageSingle (image : jsstring)
| SelectAttributionsOf (image : jsstring)
| SelectSpecies.

Record PostgrestError := { code : jsstring; message : jsstring }.

(** What an awaited query resolves to: [data] or [error]. *)
Inductive PgResult (A : Type) :=
| PgData (data : A)
| PgError (error : PostgrestError).
Arguments PgData {A} data.
Arguments PgError {A} error.

(** A handler either returns a payload or throws. *)
Inductive Outcome (A : Type) :=
| Returned (payload : A)
| Thrown (error : PostgrestError).
Arguments Returned {A} payload.
Arguments Thrown {A} error.

(** Handlers read the store and append to the log of issued queries. *)
Definition Db (A : Type) : Type := Store → list StoreQuery → Outcome A * list StoreQuery.

#[global] Instance Db_ret : MRet Db := λ A a _ log, (Returned a, log).

#[global] Instance Db_bind : MBind Db := λ A B f m store log,
  match m store log with
  | (Returned a, log') => f a store log'
  | (Thrown e, log') => (Thrown e, log')
  end.

Definition throw {A} (e : PostgrestError) : Db A := λ _ log, (Thrown e, log).

Definition issue {A} (q : StoreQuery) (answer : Store → A) : Db A :=
  λ store log, (Returned (answer store), log ++ [q]).

Definition run {A} (handler : Db A) (store : Store) : Outcome A * list StoreQuery :=
  handler store [].

(** *** What the store answers *)

Definition in_window (dateThreshold : option Z) (img : Image) : bool :=
  match dateThreshold with
  | Some t => bool_decide (t ≤ taken_on img)
  | None => true
  end.

(** [.order("taken_on", { ascending: false })]; rows with equal timestamps
    keep their table order. *)
Definition order_taken_on_desc : list Image → list Image :=
  stable_sort (λ a b, bool_decide (taken_on b ≤ taken_on a)).

Definition order_confidence_desc : list Attribution → list Attribution :=
  stable_sort (λ a b, Qle_bool (confidence b) (confidence a)).

Definition range_error : PostgrestError :=
  {| code := js "PGRST103"; message := js "Requested range not satisfiable" |}.

(** [.range(from, to)] asks for [to - from + 1] rows after skipping [from].
    A negative offset or a negative row count is refused; a window past the
    last row is answered with the rows that are there, possibly none. *)
Definition range {A} (from to : Z) (rows : list A) : PgResult (list A) :=
  if decide (from < 0 ∨ to - from + 1 < 0) then PgError range_error
  else PgData (take (Z.to_nat (to - from + 1)) (drop (Z.to_nat from) rows)).

Definition no_rows_error : PostgrestError :=
  {| code := js "PGRST116";
     message := js "JSON object requested, multiple (or no) rows returned" |}.

(** [.single()]: exactly one row, or the error [PGRST116]. *)
Definition single {A} (rows : list A) : PgResult A :=
  match rows with
  | [row] => PgData row
  | _ => PgError no_rows_error
  end.

(** The rows of [images] that pass the optional [gte("taken_on", ...)]. *)
Definition images_in_window (dateThreshold : option Z) (store : Store)
  : list Image :=
  filter (λ img, in_window dateThreshold img) (images_table store).

Definition window_count (dateThreshold : option Z) (store : Store) : Z :=
  Z.of_nat (length (images_in_window dateThreshold store)).

Definition images_page (dateThreshold : option Z) (from to : Z) (store : Store)
  : PgResult (list Image) :=
  range from to (order_taken_on_desc (images_in_window dateThreshold store)).

(** The head request with [count: "exact"]; its [error] is never read by
    the handler, only its [count], which is [null] on failure. *)
Definition count_images (dateThreshold : option Z) : Db (option Z) :=
  issue (CountImages dateThreshold)
    (λ store, Some (window_count dateThreshold store)).

Definition select_images (dateThreshold : option Z) (from to : Z)
  : Db (PgResult (list Image)) :=
  issue (SelectImages dateThreshold from to) (images_page dateThreshold from to).

(** [.in("image_id", imageIds)], rows in table order. *)
Definition attributions_in (imageIds : list jsstring) (store : Store)
  : list Attribution :=
  filter (λ attr, image_id attr ∈ imageIds) (attributions_table store).

Definition select_attributions_in (imageIds : list jsstring)
  : Db (PgResult (list Attribution)) :=
  issue (SelectAttributionsIn imageIds)
    (λ store, PgData (attributions_in imageIds store)).

(** [.eq("id", id).single()]; the identifier is compared with the [id]
    column as a string. *)
Definition select_image_single (image : jsstring) : Db (PgResult Image) :=
  issue (SelectImageSingle image)
    (λ store, single (filter (λ img, id img = image) (images_table store))).

Definition select_attributions_of (image : jsstring)
  : Db (PgResult (list Attribution)) :=
  issue (SelectAttributionsOf image)
    (λ store, PgData (order_confidence_desc
       (filter (λ attr, image_id attr = image) (attributions_table store)))).

Definition select_species : Db (PgResult (list (option jsstring))) :=
  issue SelectSpecies (λ store, PgData (species <$> attributions_table store)).

(** ** Request and response shapes *)

(** The [query] object of a [/images] request: each parameter is a string
    or is absent. *)
Module ImagesQuery.
Record t := {
  page : option jsstring;
  limit : option jsstring;
  timeRange : option jsstring;
  species : option jsstring
}.
End ImagesQuery.

Record Pagination := { page : Z; limit : Z; total : Z; totalPages : Z }.

Module Filters.
Record t := { timeRange : jsstring; species : option jsstring }.
End Filters.

Record ImagesResponse := {
  images : list ImageWithAttributions;
  pagination : Pagination;
  filters : option Filters.t
}.

Inductive ImageResponse :=
| ImageFound (found : ImageWithAttributions)
| ImageError (error : jsstring) (status : Z).

Module Entry.
Record t := { species : jsstring; count : value }.
End Entry.

(** ** [GET /images] *)

(** One day in milliseconds. *)
Definition day : Z := 86400000.

(** The [switch (timeRange)] of the handler. *)
Definition dateThreshold (now : Z) (timeRange : jsstring) : option Z :=
  if decide (timeRange = js "1D") then Some (now - 24 * 60 * 60 * 1000)
  else if decide (timeRange = js "7D") then Some (now - 7 * 24 * 60 * 60 * 1000)
  else if decide (timeRange = js "1M") then Some (now - 30 * 24 * 60 * 60 * 1000)
  else if decide (timeRange = js "3M") then Some (now - 90 * 24 * 60 * 60 * 1000)
  else if decide (timeRange = js "1YR") then Some (now - 365 * 24 * 60 * 60 * 1000)
  else None.

(** [attr.species && attr.species.trim() !== ""] *)
Definition valid_species (label : option jsstring) : bool :=
  match label with
  | Some s => truthy s && bool_decide (trim s ≠ [])
  | None => false
  end.

(** The reducer that groups attributions by [image_id]: create the group
    if it is missing, then push.  The accumulator is an object used as a
    table and is read as a finite map: keys are image identifiers, which
    never name a member inherited from [Object.prototype]. *)
Definition group_step (acc : gmap jsstring (list Attribution))
    (attr : Attribution) : gmap jsstring (list Attribution) :=
  <[image_id attr := default [] (acc !! image_id attr) ++ [attr]]> acc.

Definition group_attributions (attributions : list Attribution)
  : gmap jsstring (list Attribution) :=
  foldl group_step ∅ attributions.

(** The predicate passed to [images.filter]. *)
Definition keep_image (attributionsByImage : gmap jsstring (list Attribution))
    (speciesFilter : option jsstring) (unfilteredImage : Image) : bool :=
  match attributionsByImage !! id unfilteredImage with
  | None => false
  | Some attrs =>
      if negb (existsb (λ attr, valid_species (species attr)) attrs) then false
      else
        match speciesFilter with
        | Some wanted =>
            if truthy wanted
            then existsb (λ attr, bool_decide (species attr = Some wanted)) attrs
            else true
        | None => true
        end
  end.

(** The function passed to [.map]: spread the image, attach its group. *)
Definition enrich (attributionsByImage : gmap jsstring (list Attribution))
    (img : Image) : ImageWithAttributions :=
  {| image := img;
     attributions := default [] (attributionsByImage !! id img) |}.

(** The constants the handler derives from the request before it queries. *)
Definition page_of (query : ImagesQuery.t) : Z :=
  num_or (parseInt (ImagesQuery.page query)) 1.

Definition limit_of (query : ImagesQuery.t) : Z :=
  num_or (parseInt (ImagesQuery.limit query)) 20.

Definition offset_of (query : ImagesQuery.t) : Z :=
  (page_of query - 1) * limit_of query.

Definition timeRange_of (query : ImagesQuery.t) : jsstring :=
  str_or (ImagesQuery.timeRange query) (js "All").

Definition get_images (now : Z) (query : ImagesQuery.t) : Db ImagesResponse :=
  let page := page_of query in
  let limit := limit_of query in
  let offset := offset_of query in
  let timeRange := timeRange_of query in
  let speciesFilter := ImagesQuery.species query in
  let dateThreshold := dateThreshold now timeRange in
  count ← count_images dateThreshold;
  fetched ← select_images dateThreshold offset (offset + limit - 1);
  match fetched with
  | PgError imagesError => throw imagesError
  | PgData [] =>
      mret {| images := [];
              pagination := {| page := page; limit := limit;
                               total := 0; totalPages := 0 |};
              filters := None |}
  | PgData images =>
      let imageIds := id <$> images in
      loaded ← select_attributions_in imageIds;
      match loaded with
      | PgError attribError => throw attribError
      | PgData attributions =>
          let attributionsByImage := group_attributions attributions in
          let imagesWithAttributions :=
            enrich attributionsByImage
              <$> filter (λ img, keep_image attributionsByImage speciesFilter img)
                         images in
          mret {| images := imagesWithAttributions;
                  pagination :=
                    {| page := page; limit := limit;
                       total := default 0 count;
                       totalPages := ceil_div (default 0 count) limit |};
                  filters :=
                    Some {| Filters.timeRange := timeRange;
                            Filters.species :=
                              match speciesFilter with
                              | Some wanted =>
                                  if truthy wanted then Some wanted else None
                              | None => None
                              end |} |}
      end
  end.

(** ** [GET /images/:id] *)

Definition get_image (params_id : jsstring) : Db ImageResponse :=
  fetched ← select_image_single params_id;
  match fetched with
  | PgError imageError =>
      if decide (code imageError = js "PGRST116")
      then mret (ImageError (js "Image not found") 404)
      else throw imageError
  | PgData img =>
      loaded ← select_attributions_of params_id;
      match loaded with
      | PgError attribError => throw attribError
      | PgData attributions =>
          mret (ImageFound {| image := img; attributions := attributions |})
      end
  end.

(** ** [GET /images/:id/attributions] *)

Definition get_image_attributions (params_id : jsstring)
  : Db (jsstring * list Attribution) :=
  loaded ← select_attributions_of params_id;
  match loaded with
  | PgError error => throw error
  | PgData attributions => mret (params_id, attributions)
  end.

(** ** [GET /species] *)

(** The reducer that counts labels: [acc[s] = (acc[s] || 0) + 1] for a
    non-blank label, nothing otherwise.  The accumulator starts as [{}], so
    a label that names a member of [Object.prototype] reads that member. *)
Definition count_step (acc : list (jsstring * value)) (label : option jsstring)
  : list (jsstring * value) :=
  match label with
  | Some s =>
      if valid_species label then assign acc s (or_zero_plus_one acc s)
      else acc
  | None => acc
  end.

Definition species_counts (labels : list (option jsstring))
  : list (jsstring * value) :=
  foldl count_step [] labels.

(** [([species, count]) => ({ species, count })] *)
Definition entry_of (pair : jsstring * value) : Entry.t :=
  {| Entry.species := pair.1; Entry.count := pair.2 |}.

(** The comparator [(a, b) => b.count - a.count]; the sort takes a NaN
    result as [+0].  When the comparator is not a consistent ordering of
    the entries the order of the result is the engine's choice, and the
    model returns one permutation. *)
Definition by_count_desc (a b : Entry.t) : Z :=
  default 0 (minus (Entry.count b) (Entry.count a)).

Definition get_species : Db (list Entry.t) :=
  loaded ← select_species;
  match loaded with
  | PgError error => throw error
  | PgData attributions =>
      let speciesCounts := species_counts attributions in
      let speciesArray :=
        Array_sort by_count_desc (entry_of <$> Object_entries speciesCounts) in
      mret speciesArray
  end.

(** ** Reading a run against the tables *)

Definition newest_first (a b : Image) : Prop := taken_on b ≤ taken_on a.

(** Both counts are numbers and the first is not the smaller one. *)
Definition most_counted_first (a b : Entry.t) : Prop :=
  ∃ x y, Entry.count a = Num x ∧ Entry.count b = Num y ∧ y ≤ x.

(** The attributions the store holds for an image. *)
Definition attributions_of (store : Store) (image : jsstring)
  : list Attribution :=
  filter (λ attr, image_id attr = image) (attributions_table store).

(** Some attribution of the image carries a label that is present and not
    blank once trimmed. *)
Definition has_valid_label (store : Store) (img : Image) : Prop :=
  ∃ attr label, attr ∈ attributions_of store (id img)
                ∧ species attr = Some label ∧ trim label ≠ [].

(** Some attribution of the image carries exactly the label [wanted]. *)
Definition has_label (store : Store) (img : Image) (wanted : jsstring) : Prop :=
  ∃ attr, attr ∈ attributions_of store (id img) ∧ species attr = Some wanted.

Definition appears_in (resp : ImagesResponse) (img : Image) : Prop :=
  ∃ entry, entry ∈ images resp ∧ image entry = img.

(** How often a label occurs among the selected rows. *)
Definition occurrences (labels : list (option jsstring)) (k : jsstring) : Z :=
  Z.of_nat (length (filter (λ label, label = Some k) labels)).

(** The number of attributions in the whole table that carry [label]. *)
Definition label_count (store : Store) (label : jsstring) : Z :=
  Z.of_nat (length (filter (λ attr, species attr = Some label)
                           (attributions_table store))).

(** A label is plain when it is missing or names no member that an object
    literal inherits. *)
Definition plain_label (label : option jsstring) : Prop :=
  match label with
  | Some s => inherited s = None
  | None => True
  end.

#[global] Instance plain_label_dec label : Decision (plain_label label).
Proof. destruct label; apply _. Defined.

Definition plain_labels (store : Store) : Prop :=
  Forall (λ attr, plain_label (species attr)) (attributions_table store).

(** The counting of plain labels, on numbers: what [count_step] comes to
    while no label reads an inherited member.  Used to reason about
    [species_counts]; the handler runs [count_step]. *)
Definition tally_step (acc : list (jsstring * Z)) (label : option jsstring)
  : list (jsstring * Z) :=
  match label with
  | Some s =>
      if valid_species label then obj_set acc s (num_or (obj_get acc s) 0 + 1)
      else acc
  | None => acc
  end.

Definition tally (labels : list (option jsstring)) : list (jsstring * Z) :=
  foldl tally_step [] labels.

Definition as_number (pair : jsstring * Z) : jsstring * value :=
  (pair.1, Num pair.2).

(** The [/species] listing as it is meant to be: no blank label, each
    count the number of attributions that carry the label, most counted
    first. *)
Definition species_listing_as_meant (store : Store) : Prop :=
  ∃ entries log,
    run get_species store = (Returned entries, log)
    ∧ (∀ entry, entry ∈ entries →
         trim (Entry.species entry) ≠ []
         ∧ Entry.count entry = Num (label_count store (Entry.species entry)))
    ∧ StronglySorted most_counted_first entries.

(** The membership rule for [/images] with the species condition applied
    whenever the parameter is present in the request. *)
Definition membership_when_supplied (now : Z) (query : ImagesQuery.t)
    (store : Store) : Prop :=
  ∀ resp log fetched img,
    run (get_images now query) store = (Returned resp, log) →
    images_page (dateThreshold now (timeRange_of query)) (offset_of query)
                (offset_of query + limit_of query - 1) store = PgData fetched →
    img ∈ fetched →
    (appears_in resp img ↔
       has_valid_label store img
       ∧ ∀ wanted, ImagesQuery.species query = Some wanted →
                   has_label store img wanted).

(** The pagination rule for an empty fetched page with the window's own
    count reported. *)
Definition empty_page_reports_window_count (now : Z) (query : ImagesQuery.t)
    (store : Store) : Prop :=
  let dt := dateThreshold now (timeRange_of query) in
  images_page dt (offset_of query) (offset_of query + limit_of query - 1) store
    = PgData [] →
  ∃ resp log,
    run (get_images now query) store = (Returned resp, log)
    ∧ images resp = []
    ∧ total (pagination resp) = window_count dt store
    ∧ totalPages (pagination resp)
      = ceil_div (window_count dt store) (limit_of query).

(** ** Sample tables

    Image A was taken on 2025-01-01 and carries one attribution, "Blue Jay"
    with confidence 0.9; image B was taken on 2025-06-01 and carries none. *)

Module Sample.
Definition bare_image (name : jsstring) (taken : Z) : Image :=
  {| id := name; taken_on := taken; stored_on := taken;
     file_name := []; local_file_name := []; image_size := 0;
     image_url := []; download_url := []; enhanced_image_url := None;
     camera_id := []; camera_name := []; modem_meid := [];
     latitude := 0%Q; longitude := 0%Q; is_video := false;
     video_url := None; user_id := []; is_favorite := false;
     temperature := None; moon_phase := None; tags := None |}.

Definition labelled (image : jsstring) (label : jsstring) (score : Q)
  : Attribution :=
  {| image_id := image; model_version := js "speciesnet-ensemble";
     species := Some label; confidence := score; extra := None |}.

Definition A : Image := bare_image (js "A") 1735689600000.
Definition B : Image := bare_image (js "B") 1748736000000.

Definition store : Store :=
  {| images_table := [A; B];
     attributions_table := [labelled (js "A") (js "Blue Jay") 0.9%Q] |}.

Definition request (page limit timeRange species : option string)
  : ImagesQuery.t :=
  {| ImagesQuery.page := js <$> page;
     ImagesQuery.limit := js <$> limit;
     ImagesQuery.timeRange := js <$> timeRange;
     ImagesQuery.species := js <$> species |}.

(** 2025-06-15T00:00:00Z *)
Definition now : Z := 1749945600000.

(** [?page=1&limit=20&timeRange=All&species=Blue Jay] and what the
    handler answers on [store]. *)
Definition blue_jay_request : ImagesQuery.t :=
  request (Some "1"%string) (Some "20"%string) (Some "All"%string)
          (Some "Blue Jay"%string).

Definition blue_jay_response : ImagesResponse :=
  {| images :=
       [{| image := A;
           attributions := [labelled (js "A") (js "Blue Jay") 0.9%Q] |}];
     pagination := {| page := 1; limit := 20; total := 2; totalPages := 1 |};
     filters := Some {| Filters.timeRange := js "All";
                        Filters.species := Some (js "Blue Jay") |} |}.

Definition blue_jay_log : list StoreQuery :=
  [CountImages None; SelectImages None 0 19;
   SelectAttributionsIn [js "B"; js "A"]].

(** [?species=]: the parameter is present and empty. *)
Definition empty_species_request : ImagesQuery.t :=
  request None None None (Some EmptyString).

(** [?page=2]: one page of twenty holds both images, the second is past
    the last row. *)
Definition second_page_request : ImagesQuery.t :=
  request (Some "2"%string) None None None.

(** [?page=0&limit=0] *)
Definition zero_request : ImagesQuery.t :=
  request (Some "0"%string) (Some "0"%string) None None.

(** Three images that all qualify, and [?limit=1&page=2]. *)
Definition C : Image := bare_image (js "C") 1740787200000.

Definition full_store : Store :=
  {| images_table := [A; B; C];
     attributions_table :=
       [labelled (js "A") (js "Blue Jay") 0.9%Q;
        labelled (js "B") (js "Cardinal") 0.8%Q;
        labelled (js "C") (js "Robin") 0.7%Q] |}.

Definition one_per_page_request : ImagesQuery.t :=
  request (Some "2"%string) (Some "1"%string) None None.
End Sample.

(** ** The rest of the source *)

(** The earlier revision of [GET /images], the second listing of
    [src/index.ts]: no time range, no species parameter, and every image of
    the page is returned with whatever group it has. *)
Definition get_images_unfiltered (query : ImagesQuery.t) : Db ImagesResponse :=
  let page := page_of query in
  let limit := limit_of query in
  let offset := offset_of query in
  count ← count_images None;
  fetched ← select_images None offset (offset + limit - 1);
  match fetched with
  | PgError imagesError => throw imagesError
  | PgData [] =>
      mret {| images := [];
              pagination := {| page := page; limit := limit;
                               total := 0; totalPages := 0 |};
              filters := None |}
  | PgData images =>
      let imageIds := id <$> images in
      loaded ← select_attributions_in imageIds;
      match loaded with
      | PgError attribError => throw attribError
      | PgData attributions =>
          let attributionsByImage := group_attributions attributions in
          let imagesWithAttributions :=
            enrich attributionsByImage <$> images in
          mret {| images := imagesWithAttributions;
                  pagination :=
                    {| page := page; limit := limit;
                       total := default 0 count;
                       totalPages := ceil_div (default 0 count) limit |};
                  filters := None |}
      end
  end.

Definition most_confident_first (a b : Attribution) : Prop :=
  (confidence b <= confidence a)%Q.

(** The sum of a list of counts. *)
Definition sum_counts (counts : list Z) : Z := foldr Z.add 0 counts.

(** The number of attributions in the table whose label is present and not
    blank. *)
Definition valid_attribution_count (store : Store) : Z :=
  Z.of_nat (length (filter (λ attr, valid_species (species attr))
                           (attributions_table store))).

(** The page a request asks for, as the store answers it. *)
Definition fetched_page (now : Z) (query : ImagesQuery.t) (store : Store)
  : PgResult (list Image) :=
  images_page (dateThreshold now (timeRange_of query)) (offset_of query)
              (offset_of query + limit_of query - 1) store.

(** ** More sample tables *)

Module Gallery.
(** Image A with three attributions of different confidence, one of them
    blank; image B with none. *)
Definition store : Store :=
  {| images_table := [Sample.A; Sample.B];
     attributions_table :=
       [Sample.labelled (js "A") (js "Robin") 0.4%Q;
        Sample.labelled (js "A") (js "Blue Jay") 0.9%Q;
        Sample.labelled (js "A") (js "  ") 0.6%Q] |}.

(** [?page=1&limit=1] and [?page=2&limit=1] *)
Definition first_of_one : ImagesQuery.t :=
  Sample.request (Some "1"%string) (Some "1"%string) None None.

Definition second_of_one : ImagesQuery.t :=
  Sample.request (Some "2"%string) (Some "1"%string) None None.

(** [?timeRange=yesterday&species=Blue Jay] *)
Definition unknown_range_request : ImagesQuery.t :=
  Sample.request None None (Some "yesterday"%string) (Some "Blue Jay"%string).

(** [?page=-1] *)
Definition negative_page_request : ImagesQuery.t :=
  Sample.request (Some "-1"%string) None None None.

(** Image A labelled "constructor" by one attribution. *)
Definition constructor_store : Store :=
  {| images_table := [Sample.A];
     attributions_table :=
       [Sample.labelled (js "A") (js "constructor") 0.9%Q] |}.

(** Image A labelled "__proto__" by one attribution. *)
Definition proto_store : Store :=
  {| images_table := [Sample.A];
     attributions_table :=
       [Sample.labelled (js "A") (js "__proto__") 0.9%Q] |}.
End Gallery.

(** * Properties *)

(** ** The stable sort permutes and orders *)

Section StableSortFacts.
Context {A : Type} (le : A → A → bool).

Lemma sort_insert_perm x l : sort_insert le x l ≡ₚ x :: l.
Proof.
  induction l as [|y l IH]; simpl; [done|].
  destruct (le x y); [done|].
  rewrite IH. apply Permutation_swap.
Qed.

Lemma stable_sort_perm l : stable_sort le l ≡ₚ l.
Proof.
  induction l as [|x l IH]; simpl; [done|].
  rewrite sort_insert_perm. by f_equiv.
Qed.

Lemma stable_sort_elem_of x l : x ∈ stable_sort le l ↔ x ∈ l.
Proof. by rewrite stable_sort_perm. Qed.

Context (R : relation A) `{!Transitive R}.
Hypothesis le_sound : ∀ x y, le x y = true → R x y.
Hypothesis le_total : ∀ x y, le x y = false → R y x.

Lemma sort_insert_sorted x l :
  StronglySorted R l → StronglySorted R (sort_insert le x l).
Proof.
  induction l as [|y l IH]; simpl; intros Hl.
  - repeat constructor.
  - apply StronglySorted_cons in Hl as [Hy Hl].
    destruct (le x y) eqn:Hxy.
    + apply StronglySorted_cons. split.
      * constructor; [by apply le_sound|].
        eapply Forall_impl; [exact Hy|].
        intros z Hz. etrans; [by apply le_sound|done].
      * by apply StronglySorted_cons.
    + apply StronglySorted_cons. split; [|by apply IH].
      apply Forall_forall. intros z Hz.
      rewrite sort_insert_perm in Hz.
      apply elem_of_cons in Hz as [->|Hz]; [by apply le_total|].
      by eapply Forall_forall in Hy.
Qed.

Lemma stable_sort_sorted l : StronglySorted R (stable_sort le l).
Proof.
  induction l as [|x l IH]; simpl; [constructor|].
  by apply sort_insert_sorted.
Qed.
End StableSortFacts.

#[global] Instance newest_first_trans : Transitive newest_first.
Proof. unfold newest_first. intros a b c ??. lia. Qed.

#[global] Instance most_counted_first_trans : Transitive most_counted_first.
Proof.
  intros a b c (x & y & Ha & Hb & ?) (y' & z & Hb' & Hc & ?).
  rewrite Hb in Hb'. injection Hb' as <-. exists x, z. split_and!; [done..|lia].
Qed.

Lemma order_taken_on_desc_sorted rows :
  StronglySorted newest_first (order_taken_on_desc rows).
Proof.
  apply stable_sort_sorted; [apply _|..]; unfold newest_first; intros x y H.
  - by apply bool_decide_eq_true in H.
  - apply bool_decide_eq_false in H. lia.
Qed.

Lemma order_taken_on_desc_perm rows : order_taken_on_desc rows ≡ₚ rows.
Proof. apply stable_sort_perm. Qed.

(** ** Sublists of a sorted list are sorted *)

Lemma StronglySorted_sublist {A} (R : relation A) (l k : list A) :
  l `sublist_of` k → StronglySorted R k → StronglySorted R l.
Proof.
  induction 1 as [|x l k Hs IH|x l k Hs IH]; intros Hk; [done|..].
  - apply StronglySorted_cons in Hk as [Hx Hk].
    apply StronglySorted_cons. split; [|by apply IH].
    apply Forall_forall. intros y Hy.
    eapply Forall_forall in Hx; [done|]. by eapply elem_of_sublist.
  - apply StronglySorted_cons in Hk as [_ Hk]. by apply IH.
Qed.

(** ** [trim] *)

Lemma trimStart_nil s : trimStart s = [] ↔ Forall (λ c, is_white_space c) s.
Proof.
  induction s as [|c s IH]; simpl; [by split|].
  destruct (is_white_space c) eqn:Hc.
  - rewrite IH. split; [intros; constructor; [by rewrite Hc|done]|].
    by inversion 1.
  - split; [done|]. inversion 1 as [|?? Hw]. by rewrite Hc in Hw.
Qed.

Lemma trimStart_suffix s : trimStart s `suffix_of` s.
Proof.
  induction s as [|c s IH]; simpl; [done|].
  destruct (is_white_space c); [by apply suffix_cons_r|done].
Qed.

(** A label is blank exactly when it consists of white space only. *)
Lemma trim_blank s : trim s = [] ↔ Forall (λ c, is_white_space c) s.
Proof.
  unfold trim, trimEnd.
  rewrite <-(reverse_involutive []), (inj_iff reverse), reverse_nil.
  rewrite trimStart_nil, Forall_reverse. split.
  - intros Hall. apply trimStart_nil.
    induction s as [|c s IH]; simpl in *; [done|].
    destruct (is_white_space c) eqn:Hc; [by apply IH|].
    inversion Hall as [|?? Hw]. by rewrite Hc in Hw.
  - intros Hall. destruct (trimStart_suffix s) as [k Hk].
    rewrite Hk in Hall. by apply Forall_app in Hall as [_ ?].
Qed.

Lemma trim_nonblank_truthy s : trim s ≠ [] → truthy s = true.
Proof. by destruct s. Qed.

Lemma valid_species_spec label :
  valid_species label = true ↔ ∃ s, label = Some s ∧ trim s ≠ [].
Proof.
  destruct label as [s|]; simpl; [|split; [done|by intros (? & [=] & _)]].
  rewrite andb_true_iff, bool_decide_eq_true. split.
  - intros [_ ?]. eauto.
  - intros (? & [= <-] & ?). eauto using trim_nonblank_truthy.
Qed.

(** ** [Math.ceil] of a quotient *)

Lemma ceil_div_spec a b :
  0 < b → b * (ceil_div a b - 1) < a ≤ b * ceil_div a b.
Proof.
  intros Hb. unfold ceil_div.
  pose proof (Z.div_mod (- a) b ltac:(lia)) as Hdm.
  pose proof (Z.mod_pos_bound (- a) b Hb). nia.
Qed.

Lemma ceil_div_0 b : ceil_div 0 b = 0.
Proof. unfold ceil_div. simpl. by rewrite Zdiv_0_l. Qed.

(** ** Grouping *)

Lemma group_fold_lookup acc (attributions : list Attribution) k :
  foldl group_step acc attributions !! k =
    match filter (λ attr, image_id attr = k) attributions with
    | [] => acc !! k
    | group => Some (default [] (acc !! k) ++ group)
    end.
Proof.
  revert acc. induction attributions as [|attr l IH]; intros acc; [done|].
  simpl. rewrite IH, filter_cons. unfold group_step. destruct (decide (image_id attr = k)) as [<-|Hne].
  - rewrite lookup_insert_eq. simpl.
    destruct (filter _ l); [done|]. by rewrite <-app_assoc.
  - by rewrite lookup_insert_ne.
Qed.

(** The group of a key is the run of its attributions in arrival order;
    a key without attributions has no group. *)
Lemma group_attributions_lookup (attributions : list Attribution) k :
  group_attributions attributions !! k =
    match filter (λ attr, image_id attr = k) attributions with
    | [] => None
    | group => Some group
    end.
Proof.
  unfold group_attributions. rewrite group_fold_lookup, lookup_empty.
  by destruct (filter _ _).
Qed.

Lemma group_attributions_default (attributions : list Attribution) k :
  default [] (group_attributions attributions !! k)
  = filter (λ attr, image_id attr = k) attributions.
Proof. rewrite group_attributions_lookup. by destruct (filter _ _). Qed.

(** What was loaded for a page holds every attribution of each image on
    the page. *)
Lemma attributions_in_of store imageIds k :
  k ∈ imageIds →
  filter (λ attr, image_id attr = k) (attributions_in imageIds store)
  = attributions_of store k.
Proof.
  intros Hk. unfold attributions_in, attributions_of.
  induction (attributions_table store) as [|attr l IH]; [done|].
  rewrite !filter_cons. destruct (decide (image_id attr = k)) as [Heq|Hne].
  - rewrite decide_True by (by rewrite Heq).
    rewrite filter_cons, decide_True by done. by rewrite IH.
  - destruct (decide (image_id attr ∈ imageIds)); [|done].
    by rewrite filter_cons, decide_False.
Qed.

Lemma existsb_elem_of {A} (f : A → bool) (l : list A) :
  existsb f l = true ↔ ∃ x, x ∈ l ∧ f x = true.
Proof.
  rewrite existsb_exists. by setoid_rewrite list_elem_of_In.
Qed.

(** ** One run of [get_images], read off the store's answers *)

Section ImagesRun.
Context (now : Z) (query : ImagesQuery.t) (store : Store).

Let dt := dateThreshold now (timeRange_of query).
Let from := offset_of query.
Let to := offset_of query + limit_of query - 1.

Lemma get_images_thrown e :
  images_page dt from to store = PgError e →
  run (get_images now query) store
  = (Thrown e, [CountImages dt; SelectImages dt from to]).
Proof.
  unfold dt, from, to. intros H.
  unfold run, get_images, mbind, Db_bind, count_images, select_images, issue.
  by rewrite H.
Qed.

Lemma get_images_empty :
  images_page dt from to store = PgData [] →
  run (get_images now query) store
  = (Returned {| images := [];
                 pagination := {| page := page_of query;
                                  limit := limit_of query;
                                  total := 0; totalPages := 0 |};
                 filters := None |},
     [CountImages dt; SelectImages dt from to]).
Proof.
  unfold dt, from, to. intros H.
  unfold run, get_images, mbind, Db_bind, count_images, select_images, issue.
  by rewrite H.
Qed.

Lemma get_images_nonempty img rest :
  images_page dt from to store = PgData (img :: rest) →
  let fetched := img :: rest in
  let byImage :=
    group_attributions (attributions_in (id <$> fetched) store) in
  run (get_images now query) store
  = (Returned
       {| images :=
            enrich byImage
              <$> filter (λ i, keep_image byImage (ImagesQuery.species query) i)
                         fetched;
          pagination :=
            {| page := page_of query; limit := limit_of query;
               total := window_count dt store;
               totalPages := ceil_div (window_count dt store)
                                      (limit_of query) |};
          filters :=
            Some {| Filters.timeRange := timeRange_of query;
                    Filters.species :=
                      match ImagesQuery.species query with
                      | Some wanted =>
                          if truthy wanted then Some wanted else None
                      | None => None
                      end |} |},
     [CountImages dt; SelectImages dt from to;
      SelectAttributionsIn (id <$> fetched)]).
Proof.
  unfold dt, from, to. intros H.
  unfold run, get_images, mbind, Db_bind, count_images, select_images, issue.
  by rewrite H.
Qed.
End ImagesRun.

(** ** Which images survive *)

Lemma keep_image_spec store fetched speciesFilter img :
  img ∈ fetched →
  keep_image (group_attributions (attributions_in (id <$> fetched) store))
             speciesFilter img = true
  ↔ has_valid_label store img
    ∧ ∀ wanted, speciesFilter = Some wanted → wanted ≠ [] →
                has_label store img wanted.
Proof.
  intros Hin. unfold keep_image, has_valid_label, has_label.
  rewrite group_attributions_lookup, attributions_in_of
    by (by apply list_elem_of_fmap_2).
  destruct (attributions_of store (id img)) as [|a g] eqn:Hg.
  { split; [done|]. intros [(attr & ? & Hattr & _) _]. by inversion Hattr. }
  rewrite <-Hg. clear Hg a g.
  destruct (existsb _ _) eqn:Hvalid; simpl.
  - apply existsb_elem_of in Hvalid as (attr & Hattr & Hv).
    apply valid_species_spec in Hv as (label & Hlabel & Hnb).
    destruct speciesFilter as [wanted|]; [|naive_solver].
    destruct wanted as [|c w]; simpl; [naive_solver|].
    rewrite existsb_elem_of. split.
    + intros (attr' & ? & Heq%bool_decide_eq_true). naive_solver.
    + intros [_ Hw]. destruct (Hw (c :: w)) as (attr' & ? & ?); [done..|].
      exists attr'. by rewrite bool_decide_eq_true.
  - split; [done|]. intros [(attr & label & Hattr & Hlabel & Hnb) _].
    apply not_true_iff_false in Hvalid. destruct Hvalid.
    apply existsb_elem_of. exists attr. split; [done|].
    apply valid_species_spec. eauto.
Qed.

Lemma appears_in_spec now query store resp log fetched img :
  run (get_images now query) store = (Returned resp, log) →
  images_page (dateThreshold now (timeRange_of query)) (offset_of query)
              (offset_of query + limit_of query - 1) store = PgData fetched →
  img ∈ fetched →
  (appears_in resp img ↔
     has_valid_label store img
     ∧ ∀ wanted, ImagesQuery.species query = Some wanted → wanted ≠ [] →
                 has_label store img wanted).
Proof.
  intros Hrun Hpage Hin.
  destruct fetched as [|first rest]; [by inversion Hin|].
  rewrite (get_images_nonempty _ _ _ _ _ Hpage) in Hrun. simpl in Hrun.
  injection Hrun as <- _.
  rewrite <-(keep_image_spec store (first :: rest)) by done.
  unfold appears_in. simpl. split.
  - intros (entry & Hentry & <-).
    apply list_elem_of_fmap in Hentry as (img' & -> & Himg').
    apply list_elem_of_filter in Himg' as [Hkeep _].
    by apply Is_true_true.
  - intros Hkeep%Is_true_true. eexists. split.
    + apply list_elem_of_fmap_2, list_elem_of_filter. by split.
    + done.
Qed.

Lemma image_enrich byImage (kept : list Image) :
  image <$> (enrich byImage <$> kept) = kept.
Proof. induction kept as [|img kept IH]; [done|]. by rewrite !fmap_cons, IH. Qed.

(** ** The page that is fetched *)

Lemma range_data {A} from to (rows fetched : list A) :
  range from to rows = PgData fetched →
  0 ≤ from ∧ 0 ≤ to - from + 1
  ∧ fetched = take (Z.to_nat (to - from + 1)) (drop (Z.to_nat from) rows).
Proof.
  unfold range. case_decide; [done|]. intros [= <-]. split_and!; [lia..|done].
Qed.

Lemma range_nonempty {A} from to (rows : list A) row fetched :
  range from to rows = PgData (row :: fetched) → 0 < to - from + 1.
Proof.
  intros (? & ? & Heq)%range_data.
  destruct (decide (to - from + 1 = 0)) as [Hz|]; [|lia].
  by rewrite Hz in Heq.
Qed.

Lemma range_sublist {A} from to (rows fetched : list A) :
  range from to rows = PgData fetched → fetched `sublist_of` rows.
Proof.
  intros (_ & _ & ->)%range_data.
  etrans; [apply sublist_take|apply sublist_drop].
Qed.

(** ** The sample request *)

Lemma blue_jay_page :
  images_page (dateThreshold Sample.now (timeRange_of Sample.blue_jay_request))
    (offset_of Sample.blue_jay_request)
    (offset_of Sample.blue_jay_request + limit_of Sample.blue_jay_request - 1)
    Sample.store
  = PgData [Sample.B; Sample.A].
Proof. vm_compute. reflexivity. Qed.

Lemma blue_jay_run :
  run (get_images Sample.now Sample.blue_jay_request) Sample.store
  = (Returned Sample.blue_jay_response, Sample.blue_jay_log).
Proof. vm_compute. reflexivity. Qed.

Example second_of_three :
  run (get_images Sample.now Sample.one_per_page_request) Sample.full_store
  = (Returned
       {| images :=
            [{| image := Sample.C;
                attributions :=
                  [Sample.labelled (js "C") (js "Robin") 0.7%Q] |}];
          pagination := {| page := 2; limit := 1; total := 3; totalPages := 3 |};
          filters := Some {| Filters.timeRange := js "All";
                             Filters.species := None |} |},
     [CountImages None; SelectImages None 1 1;
      SelectAttributionsIn [js "C"]]).
Proof. vm_compute. reflexivity. Qed.

(** A request with a non-negative offset and a positive page size is
    answered, not refused. *)
Lemma get_images_returns now query store :
  0 ≤ offset_of query → 0 < limit_of query →
  ∃ resp log, run (get_images now query) store = (Returned resp, log).
Proof.
  intros Hoffset Hlimit.
  destruct (images_page (dateThreshold now (timeRange_of query))
              (offset_of query) (offset_of query + limit_of query - 1) store)
    as [[|first rest]|e] eqn:Hpage.
  - eexists _, _. by apply get_images_empty.
  - eexists _, _. by apply get_images_nonempty.
  - unfold images_page, range in Hpage. case_decide; [lia|done].
Qed.

(** * Specification properties *)

(** C2, as amended.  For every [/images] request and every image on the
    fetched page, the image appears in the response's [images] array if and
    only if it has at least one attribution whose species label is non-blank
    after trimming and, when a non-empty species filter is supplied, at
    least one of its attributions has a label exactly equal to the filter
    value.  An empty filter value is treated like an absent one. *)
Theorem images_membership now query store resp log fetched img :
  run (get_images now query) store = (Returned resp, log) →
  images_page (dateThreshold now (timeRange_of query)) (offset_of query)
              (offset_of query + limit_of query - 1) store = PgData fetched →
  img ∈ fetched →
  (appears_in resp img ↔
     has_valid_label store img
     ∧ ∀ wanted, ImagesQuery.species query = Some wanted → wanted ≠ [] →
                 has_label store img wanted).
Proof. apply appears_in_spec. Qed.

Lemma images_membership_witness :
  appears_in Sample.blue_jay_response Sample.A ↔
    has_valid_label Sample.store Sample.A
    ∧ ∀ wanted, ImagesQuery.species Sample.blue_jay_request = Some wanted →
                wanted ≠ [] → has_label Sample.store Sample.A wanted.
Proof.
  apply (images_membership Sample.now Sample.blue_jay_request Sample.store
           Sample.blue_jay_response Sample.blue_jay_log
           [Sample.B; Sample.A] Sample.A).
  - vm_compute. reflexivity.
  - vm_compute. reflexivity.
  - apply list_elem_of_further, list_elem_of_here.
Defined.

(** C2, as stated, fails when the species parameter is present and empty:
    image A is returned although none of its attributions carries the empty
    label. *)
Lemma empty_species_filter_counterexample :
  ¬ membership_when_supplied Sample.now Sample.empty_species_request
      Sample.store.
Proof.
  intros Hclaim.
  assert (∃ resp log fetched,
    run (get_images Sample.now Sample.empty_species_request) Sample.store
      = (Returned resp, log)
    ∧ images_page
        (dateThreshold Sample.now (timeRange_of Sample.empty_species_request))
        (offset_of Sample.empty_species_request)
        (offset_of Sample.empty_species_request
         + limit_of Sample.empty_species_request - 1) Sample.store
      = PgData fetched
    ∧ Sample.A ∈ fetched ∧ appears_in resp Sample.A)
    as (resp & log & fetched & Hrun & Hpage & Hin & Happ).
  { eexists _, _, [Sample.B; Sample.A]. split_and!.
    - vm_compute. reflexivity.
    - vm_compute. reflexivity.
    - apply list_elem_of_further, list_elem_of_here.
    - eexists. split; [apply list_elem_of_here|reflexivity]. }
  apply (Hclaim _ _ _ _ Hrun Hpage Hin) in Happ as [_ Hlabel].
  destruct (Hlabel [] eq_refl) as (attr & Hattr & Hspecies).
  vm_compute in Hattr.
  apply list_elem_of_singleton in Hattr as ->. discriminate Hspecies.
Qed.

(** C1.  The claim asks that an out-of-range page still reports the count of
    the time window.  On the sample store, [?page=2] fetches an empty page:
    the handler answers with an empty [images] list and with [total = 0] and
    [totalPages = 0], although two images match the window and one page
    holds them; so the claimed property fails there. *)
Theorem out_of_range_page_reports_zero :
  images_page None 20 39 Sample.store = PgData []
  ∧ run (get_images Sample.now Sample.second_page_request) Sample.store
    = (Returned {| images := [];
                   pagination := {| page := 2; limit := 20;
                                    total := 0; totalPages := 0 |};
                   filters := None |},
       [CountImages None; SelectImages None 20 39])
  ∧ window_count None Sample.store = 2
  ∧ ceil_div (window_count None Sample.store) 20 = 1
  ∧ ¬ empty_page_reports_window_count Sample.now Sample.second_page_request
        Sample.store.
Proof.
  split_and!; [by vm_compute..|].
  intros Hclaim. destruct Hclaim as (resp & log & Hrun & _ & Htotal & _).
  { by vm_compute. }
  assert (resp = {| images := [];
                    pagination := {| page := 2; limit := 20;
                                     total := 0; totalPages := 0 |};
                    filters := None |}) as ->.
  { vm_compute in Hrun. by injection Hrun as <- _. }
  vm_compute in Htotal. discriminate Htotal.
Qed.

(** C9.  For every [/images] request whose fetched image page is empty, the
    handler returns at once: the queries issued are the count and the page
    query only, no attribution query among them, and the response's
    [images] array is empty. *)
Theorem empty_page_short_circuits now query store :
  let dt := dateThreshold now (timeRange_of query) in
  let to := offset_of query + limit_of query - 1 in
  images_page dt (offset_of query) to store = PgData [] →
  ∃ resp log,
    run (get_images now query) store = (Returned resp, log)
    ∧ images resp = []
    ∧ log = [CountImages dt; SelectImages dt (offset_of query) to]
    ∧ ∀ imageIds, SelectAttributionsIn imageIds ∉ log.
Proof.
  intros dt to Hpage. eexists _, _. split_and!.
  - by apply get_images_empty.
  - done.
  - done.
  - intros imageIds Hin.
    apply elem_of_cons in Hin as [?|Hin]; [done|].
    by apply list_elem_of_singleton in Hin.
Qed.

Lemma empty_page_short_circuits_witness :
  ∃ resp log,
    run (get_images Sample.now Sample.second_page_request) Sample.store
      = (Returned resp, log)
    ∧ images resp = []
    ∧ log = [CountImages None; SelectImages None 20 39]
    ∧ ∀ imageIds, SelectAttributionsIn imageIds ∉ log.
Proof.
  apply (empty_page_short_circuits Sample.now Sample.second_page_request
           Sample.store).
  vm_compute. reflexivity.
Defined.

(** C3.  For every [/images] request with a non-empty fetched page, the
    pagination metadata is [{page, limit, total, totalPages}] where [total]
    is the number of images in the time window, whatever the validity and
    species filters remove from the [images] array, and [totalPages] is the
    ceiling of [total / limit]: the least number of pages of [limit] rows
    that hold [total] rows, and [0] when [total] is [0]. *)
Theorem nonempty_page_pagination now query store img rest :
  let dt := dateThreshold now (timeRange_of query) in
  images_page dt (offset_of query) (offset_of query + limit_of query - 1) store
    = PgData (img :: rest) →
  ∃ resp log,
    run (get_images now query) store = (Returned resp, log)
    ∧ pagination resp
      = {| page := page_of query; limit := limit_of query;
           total := window_count dt store;
           totalPages := ceil_div (window_count dt store) (limit_of query) |}
    ∧ total (pagination resp)
      = Z.of_nat (length (filter (λ i, in_window dt i) (images_table store)))
    ∧ limit_of query * (totalPages (pagination resp) - 1)
      < total (pagination resp)
      ≤ limit_of query * totalPages (pagination resp)
    ∧ (total (pagination resp) = 0 → totalPages (pagination resp) = 0).
Proof.
  intros dt Hpage. eexists _, _. split; [by apply get_images_nonempty|].
  simpl. do 2 (split; [done|]). split.
  - apply ceil_div_spec. apply range_nonempty in Hpage. lia.
  - intros Hzero. rewrite Hzero. apply ceil_div_0.
Qed.

Lemma nonempty_page_pagination_witness :
  ∃ resp log,
    run (get_images Sample.now Sample.blue_jay_request) Sample.store
      = (Returned resp, log)
    ∧ pagination resp
      = {| page := 1; limit := 20; total := 2; totalPages := 1 |}.
Proof.
  destruct (nonempty_page_pagination Sample.now Sample.blue_jay_request
              Sample.store Sample.B [Sample.A])
    as (resp & log & Hrun & Hpagination & _).
  - vm_compute. reflexivity.
  - exists resp, log. split; [exact Hrun|]. rewrite Hpagination.
    vm_compute. reflexivity.
Defined.

(** C5.  For every image that survives the filters in a [/images] response,
    the attached [attributions] list is the image's whole group as loaded
    for the page, which is every attribution the store holds for that image
    in table order, labels that differ from the species filter included. *)
Theorem surviving_image_keeps_all_attributions now query store resp log entry :
  run (get_images now query) store = (Returned resp, log) →
  entry ∈ images resp →
  ∃ fetched,
    images_page (dateThreshold now (timeRange_of query)) (offset_of query)
                (offset_of query + limit_of query - 1) store = PgData fetched
    ∧ image entry ∈ fetched
    ∧ attributions entry
      = filter (λ attr, image_id attr = id (image entry))
               (attributions_in (id <$> fetched) store)
    ∧ attributions entry = attributions_of store (id (image entry)).
Proof.
  intros Hrun Hentry.
  destruct (images_page (dateThreshold now (timeRange_of query))
              (offset_of query) (offset_of query + limit_of query - 1) store)
    as [[|first rest]|e] eqn:Hpage.
  - rewrite (get_images_empty _ _ _ Hpage) in Hrun.
    injection Hrun as <- _. by inversion Hentry.
  - rewrite (get_images_nonempty _ _ _ _ _ Hpage) in Hrun. simpl in Hrun.
    injection Hrun as <- _. simpl in Hentry.
    apply list_elem_of_fmap in Hentry as (img & -> & Himg).
    apply list_elem_of_filter in Himg as [_ Himg].
    exists (first :: rest). simpl.
    rewrite group_attributions_default. split_and!; [done..|].
    apply attributions_in_of.
    by apply (list_elem_of_fmap_2 id (first :: rest)).
  - by rewrite (get_images_thrown _ _ _ _ Hpage) in Hrun.
Qed.

Lemma surviving_image_keeps_all_attributions_witness :
  ∃ fetched,
    images_page None 0 19 Sample.store = PgData fetched
    ∧ Sample.A ∈ fetched
    ∧ [Sample.labelled (js "A") (js "Blue Jay") 0.9%Q]
      = filter (λ attr, image_id attr = js "A")
               (attributions_in (id <$> fetched) Sample.store)
    ∧ [Sample.labelled (js "A") (js "Blue Jay") 0.9%Q]
      = attributions_of Sample.store (js "A").
Proof.
  apply (surviving_image_keeps_all_attributions Sample.now
           Sample.blue_jay_request Sample.store Sample.blue_jay_response
           Sample.blue_jay_log
           {| image := Sample.A;
              attributions :=
                [Sample.labelled (js "A") (js "Blue Jay") 0.9%Q] |}).
  - vm_compute. reflexivity.
  - apply list_elem_of_here.
Defined.

(** C7.  For every [/images] request that is answered, the fetched page is
    the window of [limit] rows starting at offset [(page - 1) * limit] of
    the images in the time window ordered by [taken_on] descending, and the
    images of the response are an order-preserving subsequence of that page,
    hence themselves ordered by [taken_on] descending. *)
Theorem images_newest_first_window now query store resp log :
  run (get_images now query) store = (Returned resp, log) →
  let dt := dateThreshold now (timeRange_of query) in
  let ordered := order_taken_on_desc (images_in_window dt store) in
  ∃ fetched,
    images_page dt (offset_of query) (offset_of query + limit_of query - 1)
                store = PgData fetched
    ∧ ordered ≡ₚ images_in_window dt store
    ∧ StronglySorted newest_first ordered
    ∧ fetched = take (Z.to_nat (limit_of query))
                     (drop (Z.to_nat ((page_of query - 1) * limit_of query))
                           ordered)
    ∧ image <$> images resp `sublist_of` fetched
    ∧ StronglySorted newest_first (image <$> images resp).
Proof.
  intros Hrun dt ordered.
  destruct (images_page dt (offset_of query)
              (offset_of query + limit_of query - 1) store)
    as [fetched|e] eqn:Hpage;
    [|by rewrite (get_images_thrown _ _ _ _ Hpage) in Hrun].
  exists fetched.
  assert (image <$> images resp `sublist_of` fetched) as Hsub.
  { destruct fetched as [|first rest].
    - rewrite (get_images_empty _ _ _ Hpage) in Hrun. by injection Hrun as <- _.
    - rewrite (get_images_nonempty _ _ _ _ _ Hpage) in Hrun. simpl in Hrun.
      injection Hrun as <- _. simpl.
      rewrite image_enrich. apply sublist_filter. }
  pose proof (order_taken_on_desc_sorted (images_in_window dt store)) as Hsorted.
  split; [done|]. split; [apply order_taken_on_desc_perm|].
  split; [done|]. split; [|split; [done|]].
  - apply range_data in Hpage as (_ & _ & ->).
    replace (offset_of query + limit_of query - 1 - offset_of query + 1)
      with (limit_of query) by lia.
    done.
  - eapply StronglySorted_sublist; [exact Hsub|].
    eapply StronglySorted_sublist; [|exact Hsorted].
    by eapply range_sublist.
Qed.

Lemma images_newest_first_window_witness :
  ∃ fetched,
    images_page None 0 19 Sample.store = PgData fetched
    ∧ order_taken_on_desc (images_in_window None Sample.store)
      ≡ₚ images_in_window None Sample.store
    ∧ StronglySorted newest_first
        (order_taken_on_desc (images_in_window None Sample.store))
    ∧ fetched = take 20 (drop 0
        (order_taken_on_desc (images_in_window None Sample.store)))
    ∧ [Sample.A] `sublist_of` fetched
    ∧ StronglySorted newest_first [Sample.A].
Proof.
  apply (images_newest_first_window Sample.now Sample.blue_jay_request
           Sample.store Sample.blue_jay_response Sample.blue_jay_log).
  vm_compute. reflexivity.
Defined.

(** C4.  The resolver maps [1D], [7D], [1M], [3M] and [1YR] to the current
    time minus 1, 7, 30, 90 and 365 days, and maps [All] and every other
    token to no lower bound; it is a total function, so no token raises an
    error. *)
Theorem time_window_resolver now :
  dateThreshold now (js "1D") = Some (now - 1 * day)
  ∧ dateThreshold now (js "7D") = Some (now - 7 * day)
  ∧ dateThreshold now (js "1M") = Some (now - 30 * day)
  ∧ dateThreshold now (js "3M") = Some (now - 90 * day)
  ∧ dateThreshold now (js "1YR") = Some (now - 365 * day)
  ∧ dateThreshold now (js "All") = None
  ∧ ∀ token,
      token ∉ [js "1D"; js "7D"; js "1M"; js "3M"; js "1YR"] →
      dateThreshold now token = None.
Proof.
  split_and!; try (unfold dateThreshold, day; simpl; f_equal; lia).
  intros token Hnot. unfold dateThreshold.
  repeat case_decide; try done; subst; destruct Hnot; set_solver.
Qed.

Lemma time_window_resolver_witness :
  dateThreshold Sample.now (js "1d") = None
  ∧ dateThreshold Sample.now (js "7D") = Some 1749340800000.
Proof.
  destruct (time_window_resolver Sample.now)
    as (_ & Hweek & _ & _ & _ & _ & Hother).
  split.
  - apply Hother. apply (bool_decide_unpack _). vm_compute. exact I.
  - rewrite Hweek. vm_compute. reflexivity.
Defined.

(** C10.  For every [/images] request whose [page] or [limit] parameter
    parses to the number 0, the parameter is replaced by its default, 1 for
    [page] and 20 for [limit]; the defaulted values are the ones the
    response reports. *)
Theorem zero_page_or_limit_is_defaulted query :
  (parseInt (ImagesQuery.page query) = Some 0 → page_of query = 1)
  ∧ (parseInt (ImagesQuery.limit query) = Some 0 → limit_of query = 20)
  ∧ ∀ now store resp log,
      run (get_images now query) store = (Returned resp, log) →
      page (pagination resp) = page_of query
      ∧ limit (pagination resp) = limit_of query.
Proof.
  unfold page_of, limit_of. split_and!; [by intros ->..|].
  intros now store resp log Hrun.
  destruct (images_page (dateThreshold now (timeRange_of query))
              (offset_of query) (offset_of query + limit_of query - 1) store)
    as [[|first rest]|e] eqn:Hpage.
  - rewrite (get_images_empty _ _ _ Hpage) in Hrun. by injection Hrun as <- _.
  - rewrite (get_images_nonempty _ _ _ _ _ Hpage) in Hrun.
    by injection Hrun as <- _.
  - by rewrite (get_images_thrown _ _ _ _ Hpage) in Hrun.
Qed.

Lemma zero_page_or_limit_is_defaulted_witness :
  parseInt (Some (js "0")) = Some 0
  ∧ page_of Sample.zero_request = 1
  ∧ limit_of Sample.zero_request = 20
  ∧ page (pagination Sample.blue_jay_response) = 1.
Proof.
  destruct (zero_page_or_limit_is_defaulted Sample.zero_request)
    as (Hpage & Hlimit & _).
  destruct (zero_page_or_limit_is_defaulted Sample.blue_jay_request)
    as (_ & _ & Hresp).
  split_and!.
  - vm_compute. reflexivity.
  - apply Hpage. vm_compute. reflexivity.
  - apply Hlimit. vm_compute. reflexivity.
  - destruct (Hresp Sample.now Sample.store Sample.blue_jay_response
                Sample.blue_jay_log) as [-> _].
    + vm_compute. reflexivity.
    + vm_compute. reflexivity.
Defined.

(** C8.  For every [/images/:id] request whose identifier matches no image
    row, the handler returns the payload [{error: "Image not found",
    status: 404}] instead of throwing, and the only query issued is the one
    for the image: the attribution query is never issued. *)
Theorem missing_image_is_not_found store params_id :
  params_id ∉ id <$> images_table store →
  ∃ log,
    run (get_image params_id) store
    = (Returned (ImageError (js "Image not found") 404), log)
    ∧ log = [SelectImageSingle params_id]
    ∧ ∀ image, SelectAttributionsOf image ∉ log.
Proof.
  intros Hmissing. eexists. split_and!; [|done|].
  - unfold run, get_image, mbind, Db_bind, select_image_single, issue.
    destruct (filter _ (images_table store)) as [|img rows] eqn:Hrows; [done|].
    assert (img ∈ filter (λ i, id i = params_id) (images_table store))
      as [Heq Himg]%list_elem_of_filter
      by (rewrite Hrows; apply list_elem_of_here).
    destruct Hmissing. rewrite <-Heq. by apply list_elem_of_fmap_2.
  - intros image Hin. by apply list_elem_of_singleton in Hin.
Qed.

Lemma missing_image_is_not_found_witness :
  ∃ log,
    run (get_image (js "Z")) Sample.store
    = (Returned (ImageError (js "Image not found") 404), log)
    ∧ log = [SelectImageSingle (js "Z")]
    ∧ ∀ image, SelectAttributionsOf image ∉ log.
Proof.
  apply (missing_image_is_not_found Sample.store (js "Z")).
  apply (bool_decide_unpack _). vm_compute. exact I.
Defined.

(** ** Counter tables *)

Section ObjectFacts.
Context {V : Type}.
Implicit Types (o : list (jsstring * V)) (k : jsstring) (v : V).

Lemma obj_get_set_eq o k v : obj_get (obj_set o k v) k = Some v.
Proof.
  induction o as [|[k' v'] o IH]; simpl; [by rewrite decide_True|].
  destruct (decide (k' = k)); simpl;
    [by rewrite decide_True|by rewrite decide_False].
Qed.

Lemma obj_get_set_ne o k k' v :
  k ≠ k' → obj_get (obj_set o k v) k' = obj_get o k'.
Proof.
  intros Hne. induction o as [|[k0 v0] o IH]; simpl; [by rewrite decide_False|].
  destruct (decide (k0 = k)) as [->|]; simpl.
  - by rewrite !decide_False.
  - by rewrite IH.
Qed.

Lemma obj_set_keys o k v k' : k' ∈ (obj_set o k v).*1 ↔ k' = k ∨ k' ∈ o.*1.
Proof.
  induction o as [|[k0 v0] o IH]; simpl.
  - rewrite list_elem_of_singleton. set_solver.
  - destruct (decide (k0 = k)) as [->|]; simpl; set_solver.
Qed.

Lemma obj_set_NoDup o k v : NoDup o.*1 → NoDup (obj_set o k v).*1.
Proof.
  induction o as [|[k0 v0] o IH]; simpl; intros Hnd.
  - apply NoDup_singleton.
  - apply NoDup_cons in Hnd as [Hk0 Hnd].
    destruct (decide (k0 = k)) as [->|]; simpl; apply NoDup_cons.
    + done.
    + split; [|by apply IH]. rewrite obj_set_keys. naive_solver.
Qed.

Lemma obj_get_elem_of o k v : NoDup o.*1 → (k, v) ∈ o → obj_get o k = Some v.
Proof.
  induction o as [|[k0 v0] o IH]; simpl; intros Hnd Hin; [by inversion Hin|].
  apply NoDup_cons in Hnd as [Hk0 Hnd].
  apply elem_of_cons in Hin as [[= <- <-]|Hin]; [by rewrite decide_True|].
  rewrite decide_False; [by apply IH|].
  intros ->. apply Hk0. by apply (list_elem_of_fmap_2 fst _ (k, v)).
Qed.

Lemma Object_entries_perm o : Object_entries o ≡ₚ o.
Proof.
  unfold Object_entries, Array_sort. rewrite stable_sort_perm.
  apply filter_app_complement.
Qed.
End ObjectFacts.

#[local] Arguments valid_species : simpl never.

Lemma tally_step_get acc label k :
  default 0 (obj_get (tally_step acc label) k)
  = default 0 (obj_get acc k)
    + (if valid_species (Some k) then occurrences [label] k else 0).
Proof.
  unfold tally_step, occurrences. rewrite filter_cons, filter_nil.
  destruct label as [s|]; [|rewrite decide_False by done; simpl;
                             destruct (valid_species (Some k)); lia].
  destruct (decide (s = k)) as [->|Hne].
  - rewrite decide_True by done. destruct (valid_species (Some k)); [|simpl; lia].
    rewrite obj_get_set_eq. simpl. unfold num_or.
    destruct (obj_get acc k) as [n|]; simpl; [|lia]. case_decide; lia.
  - rewrite decide_False by congruence.
    replace (if valid_species (Some k) then _ else _) with 0
      by (by destruct (valid_species (Some k))).
    destruct (valid_species (Some s)); [|lia].
    rewrite obj_get_set_ne by done. lia.
Qed.

Lemma tally_get acc labels k :
  default 0 (obj_get (foldl tally_step acc labels) k)
  = default 0 (obj_get acc k)
    + (if valid_species (Some k) then occurrences labels k else 0).
Proof.
  revert acc. induction labels as [|label labels IH]; intros acc; simpl.
  { destruct (valid_species _); unfold occurrences; simpl; lia. }
  rewrite IH, tally_step_get. unfold occurrences.
  rewrite (filter_cons _ label labels), !filter_cons, filter_nil.
  destruct (valid_species _); [|lia].
  case_decide; simpl length; lia.
Qed.

Lemma tally_keys acc labels k :
  k ∈ (foldl tally_step acc labels).*1
  ↔ k ∈ acc.*1 ∨ (valid_species (Some k) = true ∧ Some k ∈ labels).
Proof.
  revert acc. induction labels as [|label labels IH]; intros acc; simpl.
  { split; [by left|]. intros [?|[_ Hin]]; [done|by inversion Hin]. }
  rewrite IH. unfold tally_step at 1.
  destruct label as [s|].
  - rewrite (elem_of_cons labels (Some k) (Some s)).
    destruct (valid_species (Some s)) eqn:Hs; [rewrite obj_set_keys|].
    + split; [intros [[->|?]|[? ?]]; eauto|].
      intros [?|[Hk [[= ->]|?]]]; eauto.
    + split; [intros [?|[? ?]]; eauto|].
      intros [?|[Hk [[= ->]|?]]]; eauto. congruence.
  - rewrite (elem_of_cons labels (Some k) None).
    split; [intros [?|[? ?]]; eauto|].
    intros [?|[Hk [[=]|?]]]; eauto.
Qed.

Lemma tally_NoDup acc labels :
  NoDup acc.*1 → NoDup (foldl tally_step acc labels).*1.
Proof.
  revert acc. induction labels as [|label labels IH]; intros acc Hnd; [done|].
  simpl. apply IH. unfold tally_step.
  destruct label as [s|]; [|done].
  destruct (valid_species _); [by apply obj_set_NoDup|done].
Qed.

(** Every key of the table is a non-blank label and its value is the number
    of selected rows that carry it. *)
Lemma tally_entry labels k v :
  (k, v) ∈ tally labels →
  trim k ≠ [] ∧ v = occurrences labels k.
Proof.
  intros Hin. unfold tally in *.
  assert (valid_species (Some k) = true) as Hvalid.
  { apply (list_elem_of_fmap_2 fst) in Hin. simpl in Hin.
    apply tally_keys in Hin as [Hin|[? _]]; [by inversion Hin|done]. }
  split.
  - apply valid_species_spec in Hvalid as (s & [= <-] & ?). done.
  - apply obj_get_elem_of in Hin; [|apply tally_NoDup, NoDup_nil_2].
    pose proof (tally_get [] labels k) as Hget.
    rewrite Hin, Hvalid in Hget. simpl in Hget. lia.
Qed.

Lemma occurrences_species store k :
  occurrences (species <$> attributions_table store) k = label_count store k.
Proof.
  unfold occurrences, label_count. f_equal.
  induction (attributions_table store) as [|attr l IH]; [done|].
  rewrite fmap_cons, !filter_cons.
  destruct (decide (species attr = Some k)); simpl; by rewrite IH.
Qed.

(** ** Counting on an object literal *)

Lemma obj_get_as_number acc k :
  obj_get (as_number <$> acc) k = Num <$> obj_get acc k.
Proof.
  induction acc as [|[k' n] acc IH]; [done|].
  rewrite fmap_cons. cbn [obj_get as_number fst snd].
  by destruct (decide (k' = k)).
Qed.

Lemma obj_set_as_number acc k n :
  obj_set (as_number <$> acc) k (Num n) = as_number <$> obj_set acc k n.
Proof.
  induction acc as [|[k' n'] acc IH]; [done|].
  rewrite fmap_cons. cbn [obj_set as_number fst snd].
  destruct (decide (k' = k)); rewrite fmap_cons; [done|]. by rewrite IH.
Qed.

(** While the labels are plain, the handler's reducer is the counting on
    numbers. *)
Lemma count_step_plain acc label :
  plain_label label →
  count_step (as_number <$> acc) label = as_number <$> tally_step acc label.
Proof.
  intros Hplain. unfold count_step, tally_step.
  destruct label as [s|]; [|done]. destruct (valid_species _); [|done].
  simpl in Hplain. unfold assign, or_zero_plus_one.
  rewrite decide_False by (intros ->; by vm_compute in Hplain).
  rewrite obj_get_as_number, Hplain.
  destruct (obj_get acc s) as [n|]; simpl; apply obj_set_as_number.
Qed.

Lemma species_counts_plain labels :
  Forall plain_label labels →
  species_counts labels = as_number <$> tally labels.
Proof.
  unfold species_counts, tally. change [] with (as_number <$> []) at 1.
  generalize (@nil (jsstring * Z)) as acc.
  induction labels as [|label labels IH]; intros acc Hplain; [done|].
  apply Forall_cons in Hplain as [Hlabel Hplain]. cbn [foldl].
  rewrite count_step_plain by done. by apply IH.
Qed.

Lemma plain_labels_species store :
  plain_labels store → Forall plain_label (species <$> attributions_table store).
Proof. intros Hplain. by apply Forall_fmap. Qed.

Section SortedOn.
Context {A : Type} (le : A → A → bool) (P : A → Prop) (R : relation A).
Context `{!Transitive R}.
Hypothesis le_sound : ∀ x y, P x → P y → le x y = true → R x y.
Hypothesis le_total : ∀ x y, P x → P y → le x y = false → R y x.

Lemma sort_insert_sorted_on x l :
  P x → Forall P l → StronglySorted R l →
  StronglySorted R (sort_insert le x l).
Proof.
  intros Hx. induction l as [|y l IH]; simpl; intros HP Hl.
  - repeat constructor.
  - apply Forall_cons in HP as [Hy HP].
    apply StronglySorted_cons in Hl as [Hyl Hl].
    destruct (le x y) eqn:Hxy.
    + apply StronglySorted_cons. split.
      * constructor; [by apply le_sound|].
        eapply Forall_impl; [exact Hyl|].
        intros z Hz. etrans; [by apply le_sound|done].
      * by apply StronglySorted_cons.
    + apply StronglySorted_cons. split; [|by apply IH].
      apply Forall_forall. intros z Hz.
      rewrite sort_insert_perm in Hz.
      apply elem_of_cons in Hz as [->|Hz]; [by apply le_total|].
      by eapply Forall_forall in Hyl.
Qed.

Lemma stable_sort_sorted_on l :
  Forall P l → StronglySorted R (stable_sort le l).
Proof.
  induction l as [|x l IH]; simpl; intros HP; [constructor|].
  apply Forall_cons in HP as [Hx HP].
  apply sort_insert_sorted_on; [done| |by apply IH].
  by rewrite stable_sort_perm.
Qed.
End SortedOn.

(** Entries whose counts are all numbers come out most counted first. *)
Lemma Array_sort_by_count_sorted (entries : list Entry.t) :
  Forall (λ entry, ∃ n, Entry.count entry = Num n) entries →
  StronglySorted most_counted_first (Array_sort by_count_desc entries).
Proof.
  apply stable_sort_sorted_on; [apply _|..];
    intros x y [a Ha] [b Hb] H;
    unfold by_count_desc, minus in H; rewrite Ha, Hb in H; simpl in H.
  - apply bool_decide_eq_true in H. exists a, b. split_and!; [done..|lia].
  - apply bool_decide_eq_false in H. exists b, a. split_and!; [done..|lia].
Qed.

Lemma get_species_run store :
  run get_species store
  = (Returned (Array_sort by_count_desc
                 (entry_of <$> Object_entries
                    (species_counts (species <$> attributions_table store)))),
     [SelectSpecies]).
Proof. reflexivity. Qed.

(** With plain labels the listing is, up to order, the tally of the labels
    with its numbers. *)
Lemma species_entries_perm store :
  plain_labels store →
  Array_sort by_count_desc
    (entry_of <$> Object_entries
       (species_counts (species <$> attributions_table store)))
  ≡ₚ entry_of <$> (as_number <$> tally (species <$> attributions_table store)).
Proof.
  intros Hplain%plain_labels_species. rewrite species_counts_plain by done.
  unfold Array_sort. by rewrite stable_sort_perm, Object_entries_perm.
Qed.

(** C6.  The claim asks that every listed label come with the number of
    attributions that carry it.  On a table whose single attribution is
    labelled "constructor", the counter [{}] already answers the lookup of
    that label with the inherited member: the handler lists the label with
    a string for a count, the text of the member followed by "1", where one
    attribution carries it.  A label "__proto__" is not listed at all.  So
    the listing is not the one that is meant. *)
Theorem inherited_label_is_miscounted :
  (∃ text,
     run get_species Gallery.constructor_store
     = (Returned [{| Entry.species := js "constructor";
                     Entry.count := Str (text ++ js "1") |}],
        [SelectSpecies])
     ∧ inherited (js "constructor") = Some text)
  ∧ label_count Gallery.constructor_store (js "constructor") = 1
  ∧ run get_species Gallery.proto_store = (Returned [], [SelectSpecies])
  ∧ ¬ species_listing_as_meant Gallery.constructor_store.
Proof.
  split_and!;
    [exists (native_source (js "Object")); split; by vm_compute
    |by vm_compute..|].
  intros (entries & log & Hrun & Hcounts & _).
  assert (entries
          = [{| Entry.species := js "constructor";
                Entry.count :=
                  Str (native_source (js "Object") ++ js "1") |}]) as ->.
  { vm_compute in Hrun. by injection Hrun as <- _. }
  destruct (Hcounts _ (list_elem_of_here _ _)) as [_ Hcount].
  discriminate Hcount.
Qed.

(** * Further properties of the handlers *)

(** ** What a run of [get_images] returns *)

(** The images of a response are the images of the fetched page that pass
    the filter, in page order. *)
Lemma response_images_filtered now query store resp log :
  run (get_images now query) store = (Returned resp, log) →
  ∃ fetched,
    fetched_page now query store = PgData fetched
    ∧ image <$> images resp
      = filter (λ img, keep_image
                         (group_attributions
                            (attributions_in (id <$> fetched) store))
                         (ImagesQuery.species query) img) fetched.
Proof.
  intros Hrun. unfold fetched_page.
  destruct (images_page (dateThreshold now (timeRange_of query))
              (offset_of query) (offset_of query + limit_of query - 1) store)
    as [[|first rest]|e] eqn:Hpage.
  - rewrite (get_images_empty _ _ _ Hpage) in Hrun.
    injection Hrun as <- _. by exists [].
  - rewrite (get_images_nonempty _ _ _ _ _ Hpage) in Hrun.
    injection Hrun as <- _. exists (first :: rest).
    split; [done|]. cbn [images]. by rewrite image_enrich.
  - by rewrite (get_images_thrown _ _ _ _ Hpage) in Hrun.
Qed.

Lemma response_images_sublist now query store resp log :
  run (get_images now query) store = (Returned resp, log) →
  ∃ fetched,
    fetched_page now query store = PgData fetched
    ∧ image <$> images resp `sublist_of` fetched.
Proof.
  intros (fetched & Hpage & ->)%response_images_filtered.
  exists fetched. split; [done|apply sublist_filter].
Qed.

Lemma fetched_page_submseteq now query store fetched :
  fetched_page now query store = PgData fetched →
  fetched ⊆+ images_in_window (dateThreshold now (timeRange_of query)) store.
Proof.
  intros Hpage%range_sublist%sublist_submseteq.
  by rewrite order_taken_on_desc_perm in Hpage.
Qed.

Lemma images_in_window_elem_of dt store img :
  img ∈ images_in_window dt store
  ↔ in_window dt img = true ∧ img ∈ images_table store.
Proof.
  unfold images_in_window. rewrite list_elem_of_filter.
  by rewrite Is_true_true.
Qed.

Lemma window_count_length dt store :
  window_count dt store
  = Z.of_nat (length (order_taken_on_desc (images_in_window dt store))).
Proof. unfold window_count. by rewrite order_taken_on_desc_perm. Qed.

(** X1.  Every image of a [/images] response is a row of the images table
    whose capture time is not before the lower bound the time-range token
    resolves to; with no bound, any row qualifies. *)
Theorem returned_images_respect_window now query store resp log entry :
  run (get_images now query) store = (Returned resp, log) →
  entry ∈ images resp →
  image entry ∈ images_table store
  ∧ ∀ bound, dateThreshold now (timeRange_of query) = Some bound →
             bound ≤ taken_on (image entry).
Proof.
  intros (fetched & Hpage & Hsub)%response_images_sublist Hentry.
  apply (list_elem_of_fmap_2 image) in Hentry.
  eapply elem_of_sublist in Hentry; [|exact Hsub].
  eapply elem_of_submseteq in Hentry; [|by eapply fetched_page_submseteq].
  apply images_in_window_elem_of in Hentry as [Hwin Htable].
  split; [done|]. intros bound Hbound. rewrite Hbound in Hwin.
  by apply bool_decide_eq_true in Hwin.
Qed.

Lemma returned_images_respect_window_witness :
  Sample.B ∈ images_table Sample.full_store
  ∧ ∀ bound,
      dateThreshold Sample.now
        (timeRange_of (Sample.request None None (Some "1M"%string) None))
      = Some bound →
      bound ≤ taken_on Sample.B.
Proof.
  apply (returned_images_respect_window Sample.now
           (Sample.request None None (Some "1M"%string) None)
           Sample.full_store
           {| images :=
                [{| image := Sample.B;
                    attributions :=
                      [Sample.labelled (js "B") (js "Cardinal") 0.8%Q] |}];
              pagination :=
                {| page := 1; limit := 20; total := 1; totalPages := 1 |};
              filters := Some {| Filters.timeRange := js "1M";
                                 Filters.species := None |} |}
           [CountImages (Some 1747353600000);
            SelectImages (Some 1747353600000) 0 19;
            SelectAttributionsIn [js "B"]]
           {| image := Sample.B;
              attributions :=
                [Sample.labelled (js "B") (js "Cardinal") 0.8%Q] |}).
  - vm_compute. reflexivity.
  - apply list_elem_of_here.
Defined.

(** X2.  A [/images] response never holds more images than the page size:
    whenever the handler answers, [limit] is positive and the [images]
    array has at most [limit] elements. *)
Theorem page_size_bounds_response now query store resp log :
  run (get_images now query) store = (Returned resp, log) →
  0 < limit_of query ∧ Z.of_nat (length (images resp)) ≤ limit_of query.
Proof.
  intros (fetched & Hpage & Hsub)%response_images_sublist.
  apply sublist_length in Hsub. rewrite length_fmap in Hsub.
  apply range_data in Hpage as (_ & Hlimit & ->).
  rewrite length_take in Hsub.
  assert (limit_of query ≠ 0) as Hnz.
  { unfold limit_of, num_or. destruct (parseInt _); [case_decide|]; done. }
  lia.
Qed.

Lemma page_size_bounds_response_witness :
  0 < limit_of Sample.one_per_page_request
  ∧ Z.of_nat 1 ≤ limit_of Sample.one_per_page_request.
Proof.
  apply (page_size_bounds_response Sample.now Sample.one_per_page_request
           Sample.full_store
           {| images :=
                [{| image := Sample.C;
                    attributions :=
                      [Sample.labelled (js "C") (js "Robin") 0.7%Q] |}];
              pagination :=
                {| page := 2; limit := 1; total := 3; totalPages := 3 |};
              filters := Some {| Filters.timeRange := js "All";
                                 Filters.species := None |} |}
           [CountImages None; SelectImages None 1 1;
            SelectAttributionsIn [js "C"]]).
  vm_compute. reflexivity.
Defined.

(** X3.  When the identifiers of the images table are pairwise distinct, so
    are the identifiers of the images of a [/images] response: no image is
    returned twice. *)
Theorem returned_images_are_distinct now query store resp log :
  NoDup (id <$> images_table store) →
  run (get_images now query) store = (Returned resp, log) →
  NoDup (id <$> (image <$> images resp)).
Proof.
  intros Hnd (fetched & Hpage & Hsub)%response_images_sublist.
  apply fetched_page_submseteq in Hpage.
  assert (id <$> (image <$> images resp) ⊆+ id <$> images_table store)
    as (rest & Hrest)%submseteq_Permutation.
  { apply fmap_submseteq. etrans; [by apply sublist_submseteq|].
    etrans; [exact Hpage|]. apply sublist_submseteq, sublist_filter. }
  rewrite Hrest in Hnd. by apply NoDup_app in Hnd as [? _].
Qed.

Lemma returned_images_are_distinct_witness :
  NoDup (id <$> (image <$> images Sample.blue_jay_response)).
Proof.
  apply (returned_images_are_distinct Sample.now Sample.blue_jay_request
           Sample.store Sample.blue_jay_response Sample.blue_jay_log).
  - apply (bool_decide_unpack _). vm_compute. exact I.
  - vm_compute. reflexivity.
Defined.

(** ** Pages and their offsets *)

(** X4.  Whenever a non-empty page is fetched, the handler answers with a
    page number that lies between 1 and [totalPages], and the rows skipped
    plus the images returned do not exceed [total]. *)
Theorem nonempty_page_is_within_total_pages now query store img rest :
  fetched_page now query store = PgData (img :: rest) →
  ∃ resp log,
    run (get_images now query) store = (Returned resp, log)
    ∧ 1 ≤ page (pagination resp) ≤ totalPages (pagination resp)
    ∧ (page (pagination resp) - 1) * limit (pagination resp)
      + Z.of_nat (length (images resp)) ≤ total (pagination resp).
Proof.
  intros Hpage. eexists _, _.
  split; [by apply get_images_nonempty|]. cbn [pagination page limit total
    totalPages images]. rewrite length_fmap.
  pose proof (range_nonempty _ _ _ _ _ Hpage) as Hlimit.
  pose proof (length_filter
    (λ i, keep_image
            (group_attributions (attributions_in (id <$> img :: rest) store))
            (ImagesQuery.species query) i) (img :: rest)) as Hkept.
  set (kept := length (filter _ (img :: rest))) in *.
  apply range_data in Hpage as (Hoffset & _ & Hfetched).
  apply (f_equal length) in Hfetched.
  rewrite length_take, length_drop in Hfetched.
  rewrite window_count_length.
  set (rows := length (order_taken_on_desc _)) in *.
  set (fetched := length (img :: rest)) in *.
  assert (0 < fetched)%nat by (unfold fetched; simpl; lia).
  replace (offset_of query + limit_of query - 1 - offset_of query + 1)
    with (limit_of query) in * by lia.
  pose proof (ceil_div_spec (Z.of_nat rows) (limit_of query) ltac:(lia))
    as [_ Hceil].
  unfold offset_of in *.
  assert ((page_of query - 1) * limit_of query < Z.of_nat rows) by lia.
  split; [split; nia|lia].
Qed.

Lemma nonempty_page_is_within_total_pages_witness :
  ∃ resp log,
    run (get_images Sample.now Sample.one_per_page_request) Sample.full_store
      = (Returned resp, log)
    ∧ 1 ≤ page (pagination resp) ≤ totalPages (pagination resp)
    ∧ (page (pagination resp) - 1) * limit (pagination resp)
      + Z.of_nat (length (images resp)) ≤ total (pagination resp).
Proof.
  apply (nonempty_page_is_within_total_pages Sample.now
           Sample.one_per_page_request Sample.full_store Sample.C []).
  vm_compute. reflexivity.
Defined.

Lemma NoDup_fmap_eq {A B} (f : A → B) (l : list A) x y :
  NoDup (f <$> l) → x ∈ l → y ∈ l → f x = f y → x = y.
Proof.
  induction l as [|z l IH]; intros Hnd Hx Hy Heq; [by inversion Hx|].
  rewrite fmap_cons in Hnd. apply NoDup_cons in Hnd as [Hz Hnd].
  apply elem_of_cons in Hx as [->|Hx]; apply elem_of_cons in Hy as [->|Hy].
  - done.
  - destruct Hz. rewrite Heq. by apply list_elem_of_fmap_2.
  - destruct Hz. rewrite <-Heq. by apply list_elem_of_fmap_2.
  - by apply IH.
Qed.

Lemma window_times_distinct dt store :
  NoDup (taken_on <$> images_table store) →
  NoDup (taken_on <$> images_in_window dt store).
Proof.
  intros Hnd. eapply sublist_NoDup; [exact Hnd|].
  apply fmap_sublist, sublist_filter.
Qed.

(** X6.  When no two images share a capture time, the store has one way
    only to order a time window newest first, and two answered requests for
    consecutive pages of the same size and time range never overlap: every
    image returned for the later page is strictly older than every image
    returned for the earlier one. *)
Theorem consecutive_pages_do_not_overlap now query next store resp resp'
    log log' :
  NoDup (taken_on <$> images_table store) →
  timeRange_of next = timeRange_of query →
  limit_of next = limit_of query →
  page_of next = page_of query + 1 →
  run (get_images now query) store = (Returned resp, log) →
  run (get_images now next) store = (Returned resp', log') →
  (∀ entry entry', entry ∈ images resp → entry' ∈ images resp' →
     taken_on (image entry') < taken_on (image entry))
  ∧ ∀ ordered,
      StronglySorted newest_first ordered →
      ordered ≡ₚ images_in_window (dateThreshold now (timeRange_of query))
                                  store →
      ordered = order_taken_on_desc
                  (images_in_window (dateThreshold now (timeRange_of query))
                                    store).
Proof.
  intros Hnd Hrange Hlimit Hpage
    (first & Hfirst & Hsub)%response_images_sublist
    (second & Hsecond & Hsub')%response_images_sublist.
  apply (window_times_distinct (dateThreshold now (timeRange_of query)))
    in Hnd.
  set (window := images_in_window _ store) in *.
  pose proof (order_taken_on_desc_sorted window) as Hsorted.
  pose proof (order_taken_on_desc_perm window) as Hperm.
  split.
  - intros entry entry' Hentry Hentry'.
    apply (list_elem_of_fmap_2 image) in Hentry, Hentry'.
    eapply elem_of_sublist in Hentry; [|exact Hsub].
    eapply elem_of_sublist in Hentry'; [|exact Hsub'].
    unfold fetched_page, images_page in Hfirst, Hsecond.
    rewrite Hrange in Hsecond. fold window in Hfirst, Hsecond.
    apply range_data in Hfirst as (Hoffset & Hsize & ->).
    apply range_data in Hsecond as (_ & _ & ->).
    unfold offset_of in *. rewrite Hlimit, Hpage in Hentry'.
    replace ((page_of query - 1) * limit_of query + limit_of query - 1
             - (page_of query - 1) * limit_of query + 1)
      with (limit_of query) in * by lia.
    replace ((page_of query + 1 - 1) * limit_of query + limit_of query - 1
             - (page_of query + 1 - 1) * limit_of query + 1)
      with (limit_of query) in * by lia.
    replace (Z.to_nat ((page_of query + 1 - 1) * limit_of query))
      with (Z.to_nat ((page_of query - 1) * limit_of query)
            + Z.to_nat (limit_of query))%nat in Hentry' by nia.
    rewrite <-drop_drop in Hentry'.
    set (rest := drop _ (order_taken_on_desc window)) in *.
    assert (take (Z.to_nat (limit_of query)) rest
            ++ take (Z.to_nat (limit_of query))
                    (drop (Z.to_nat (limit_of query)) rest)
            `sublist_of` order_taken_on_desc window) as Hboth.
    { rewrite take_take_drop. etrans; [apply sublist_take|apply sublist_drop]. }
    assert (newest_first (image entry) (image entry')) as Hle.
    { eapply StronglySorted_app_1_elem_of; [|done..].
      by eapply StronglySorted_sublist. }
    assert (taken_on (image entry) ≠ taken_on (image entry')) as Hne.
    { apply (fmap_sublist taken_on) in Hboth.
      eapply sublist_NoDup in Hboth; [|by rewrite Hperm].
      rewrite fmap_app in Hboth. apply NoDup_app in Hboth as (_ & Hdisj & _).
      intros Heq. eapply Hdisj; [by apply list_elem_of_fmap_2|].
      rewrite Heq. by apply list_elem_of_fmap_2. }
    unfold newest_first in Hle. lia.
  - intros ordered Hordered Hordered_perm.
    apply (StronglySorted_unique_strong newest_first); [|done..|].
    + intros x1 x2 Hx1 Hx2 H12 H21. rewrite Hordered_perm in Hx1.
      rewrite Hperm in Hx2. unfold newest_first in *.
      eapply (NoDup_fmap_eq taken_on); [done..|lia].
    + by rewrite Hordered_perm, Hperm.
Qed.

Lemma consecutive_pages_do_not_overlap_witness :
  (∀ entry entry',
     entry ∈ [{| image := Sample.B;
                 attributions :=
                   [Sample.labelled (js "B") (js "Cardinal") 0.8%Q] |}] →
     entry' ∈ [{| image := Sample.C;
                  attributions :=
                    [Sample.labelled (js "C") (js "Robin") 0.7%Q] |}] →
     taken_on (image entry') < taken_on (image entry))
  ∧ ∀ ordered,
      StronglySorted newest_first ordered →
      ordered ≡ₚ images_in_window None Sample.full_store →
      ordered = order_taken_on_desc (images_in_window None Sample.full_store).
Proof.
  apply (consecutive_pages_do_not_overlap Sample.now Gallery.first_of_one
           Gallery.second_of_one Sample.full_store
           {| images :=
                [{| image := Sample.B;
                    attributions :=
                      [Sample.labelled (js "B") (js "Cardinal") 0.8%Q] |}];
              pagination :=
                {| page := 1; limit := 1; total := 3; totalPages := 3 |};
              filters := Some {| Filters.timeRange := js "All";
                                 Filters.species := None |} |}
           {| images :=
                [{| image := Sample.C;
                    attributions :=
                      [Sample.labelled (js "C") (js "Robin") 0.7%Q] |}];
              pagination :=
                {| page := 2; limit := 1; total := 3; totalPages := 3 |};
              filters := Some {| Filters.timeRange := js "All";
                                 Filters.species := None |} |}
           [CountImages None; SelectImages None 0 0;
            SelectAttributionsIn [js "B"]]
           [CountImages None; SelectImages None 1 1;
            SelectAttributionsIn [js "C"]]).
  - apply (bool_decide_unpack _). vm_compute. exact I.
  - vm_compute. reflexivity.
  - vm_compute. reflexivity.
  - vm_compute. reflexivity.
  - vm_compute. reflexivity.
  - vm_compute. reflexivity.
Defined.

(** X7.  When the store refuses the page query, the handler throws that
    very error: it has issued the count and the page query, issues no
    attribution query and builds no response. *)
Theorem refused_page_is_rethrown now query store refusal :
  fetched_page now query store = PgError refusal →
  ∃ log,
    run (get_images now query) store = (Thrown refusal, log)
    ∧ log = [CountImages (dateThreshold now (timeRange_of query));
             SelectImages (dateThreshold now (timeRange_of query))
               (offset_of query) (offset_of query + limit_of query - 1)]
    ∧ ∀ imageIds, SelectAttributionsIn imageIds ∉ log.
Proof.
  intros Hpage. eexists. split_and!; [by apply get_images_thrown|done|].
  intros imageIds Hin.
  apply elem_of_cons in Hin as [?|Hin]; [done|].
  by apply list_elem_of_singleton in Hin.
Qed.

Lemma refused_page_is_rethrown_witness :
  ∃ log,
    run (get_images Sample.now Gallery.negative_page_request) Sample.store
      = (Thrown range_error, log)
    ∧ log = [CountImages None; SelectImages None (-40) (-21)]
    ∧ ∀ imageIds, SelectAttributionsIn imageIds ∉ log.
Proof.
  apply (refused_page_is_rethrown Sample.now Gallery.negative_page_request
           Sample.store range_error).
  vm_compute. reflexivity.
Defined.

(** ** The entries of a response *)

(** Each entry of a response is an image of the fetched page that passed
    the filter, with every attribution the store holds for it. *)
Lemma response_entry_spec now query store resp log entry :
  run (get_images now query) store = (Returned resp, log) →
  entry ∈ images resp →
  ∃ fetched,
    fetched_page now query store = PgData fetched
    ∧ image entry ∈ fetched
    ∧ keep_image (group_attributions (attributions_in (id <$> fetched) store))
                 (ImagesQuery.species query) (image entry) = true
    ∧ attributions entry = attributions_of store (id (image entry)).
Proof.
  intros Hrun Hentry. unfold fetched_page.
  destruct (images_page (dateThreshold now (timeRange_of query))
              (offset_of query) (offset_of query + limit_of query - 1) store)
    as [[|first rest]|e] eqn:Hpage.
  - rewrite (get_images_empty _ _ _ Hpage) in Hrun.
    injection Hrun as <- _. by inversion Hentry.
  - rewrite (get_images_nonempty _ _ _ _ _ Hpage) in Hrun.
    injection Hrun as <- _. cbn [images] in Hentry.
    apply list_elem_of_fmap in Hentry as (img & -> & Himg).
    apply list_elem_of_filter in Himg as [Hkeep%Is_true_true Himg].
    exists (first :: rest). cbn [image attributions enrich].
    split_and!; [done..|].
    rewrite group_attributions_default. apply attributions_in_of.
    by apply (list_elem_of_fmap_2 id (first :: rest)).
  - by rewrite (get_images_thrown _ _ _ _ Hpage) in Hrun.
Qed.

(** X8.  Every image of a [/images] response comes with at least one
    attribution whose label is not blank, with an attribution carrying the
    requested species when a non-empty species filter is given, and with
    attributions of that image only. *)
Theorem returned_entry_attributions now query store resp log entry :
  run (get_images now query) store = (Returned resp, log) →
  entry ∈ images resp →
  (∃ attr label, attr ∈ attributions entry
                 ∧ species attr = Some label ∧ trim label ≠ [])
  ∧ (∀ wanted, ImagesQuery.species query = Some wanted → wanted ≠ [] →
               ∃ attr, attr ∈ attributions entry ∧ species attr = Some wanted)
  ∧ ∀ attr, attr ∈ attributions entry → image_id attr = id (image entry).
Proof.
  intros Hrun Hentry.
  destruct (response_entry_spec _ _ _ _ _ _ Hrun Hentry)
    as (fetched & _ & Hin & Hkeep & ->).
  apply keep_image_spec in Hkeep as [Hvalid Hwanted]; [|done].
  split_and!; [done..|].
  intros attr Hattr. unfold attributions_of in Hattr.
  by apply list_elem_of_filter in Hattr as [? _].
Qed.

Lemma returned_entry_attributions_witness :
  (∃ attr label,
      attr ∈ [Sample.labelled (js "A") (js "Blue Jay") 0.9%Q]
      ∧ species attr = Some label ∧ trim label ≠ [])
  ∧ (∀ wanted,
       ImagesQuery.species Sample.blue_jay_request = Some wanted →
       wanted ≠ [] →
       ∃ attr, attr ∈ [Sample.labelled (js "A") (js "Blue Jay") 0.9%Q]
               ∧ species attr = Some wanted)
  ∧ ∀ attr, attr ∈ [Sample.labelled (js "A") (js "Blue Jay") 0.9%Q] →
            image_id attr = js "A".
Proof.
  apply (returned_entry_attributions Sample.now Sample.blue_jay_request
           Sample.store Sample.blue_jay_response Sample.blue_jay_log
           {| image := Sample.A;
              attributions :=
                [Sample.labelled (js "A") (js "Blue Jay") 0.9%Q] |}).
  - vm_compute. reflexivity.
  - apply list_elem_of_here.
Defined.

(** X9.  With a species filter whose value is not blank, an image of the
    fetched page is returned exactly when one of its attributions carries
    that label: the validity condition adds nothing. *)
Theorem nonblank_filter_selects_label now query store resp log fetched img
    wanted :
  run (get_images now query) store = (Returned resp, log) →
  fetched_page now query store = PgData fetched →
  img ∈ fetched →
  ImagesQuery.species query = Some wanted →
  trim wanted ≠ [] →
  (appears_in resp img ↔ has_label store img wanted).
Proof.
  intros Hrun Hpage Hin Hwanted Hnb.
  rewrite (appears_in_spec _ _ _ _ _ _ _ Hrun Hpage Hin). split.
  - intros [_ Hlabel]. apply Hlabel; [done|]. by intros ->.
  - intros (attr & Hattr & Hspecies). split.
    + by exists attr, wanted.
    + intros wanted' Heq _. rewrite Hwanted in Heq.
      injection Heq as <-. by exists attr.
Qed.

Lemma nonblank_filter_selects_label_witness :
  appears_in Sample.blue_jay_response Sample.B
  ↔ has_label Sample.store Sample.B (js "Blue Jay").
Proof.
  apply (nonblank_filter_selects_label Sample.now Sample.blue_jay_request
           Sample.store Sample.blue_jay_response Sample.blue_jay_log
           [Sample.B; Sample.A] Sample.B (js "Blue Jay")).
  - vm_compute. reflexivity.
  - vm_compute. reflexivity.
  - apply list_elem_of_here.
  - vm_compute. reflexivity.
  - vm_compute. discriminate.
Defined.

(** X10.  The [filters] field is part of a [/images] response exactly when
    the fetched page is not empty.  It then echoes the time-range token as
    given, recognised or not, or "All" when the token is absent or empty,
    and the species filter, or null when that is absent or empty. *)
Theorem filters_echo_the_request now query store resp log :
  run (get_images now query) store = (Returned resp, log) →
  (filters resp = None ↔ fetched_page now query store = PgData [])
  ∧ ∀ echoed, filters resp = Some echoed →
      (∀ token, ImagesQuery.timeRange query = Some token → token ≠ [] →
                Filters.timeRange echoed = token)
      ∧ ((ImagesQuery.timeRange query = None
          ∨ ImagesQuery.timeRange query = Some []) →
         Filters.timeRange echoed = js "All")
      ∧ (∀ wanted, ImagesQuery.species query = Some wanted → wanted ≠ [] →
                   Filters.species echoed = Some wanted)
      ∧ ((ImagesQuery.species query = None
          ∨ ImagesQuery.species query = Some []) →
         Filters.species echoed = None).
Proof.
  intros Hrun. unfold fetched_page.
  destruct (images_page (dateThreshold now (timeRange_of query))
              (offset_of query) (offset_of query + limit_of query - 1) store)
    as [[|first rest]|e] eqn:Hpage.
  - rewrite (get_images_empty _ _ _ Hpage) in Hrun.
    injection Hrun as <- _. by split.
  - rewrite (get_images_nonempty _ _ _ _ _ Hpage) in Hrun.
    injection Hrun as <- _. cbn [filters]. split; [by split|].
    intros echoed [= <-]. cbn [Filters.timeRange Filters.species].
    unfold timeRange_of, str_or. split_and!.
    + intros token -> Hne. by destruct token.
    + by intros [->| ->].
    + intros wanted -> Hne. by destruct wanted.
    + by intros [->| ->].
  - by rewrite (get_images_thrown _ _ _ _ Hpage) in Hrun.
Qed.

Lemma filters_echo_the_request_witness :
  ∃ resp log echoed,
    run (get_images Sample.now Gallery.unknown_range_request) Sample.store
      = (Returned resp, log)
    ∧ filters resp = Some echoed
    ∧ Filters.timeRange echoed = js "yesterday"
    ∧ Filters.species echoed = Some (js "Blue Jay")
    ∧ log = Sample.blue_jay_log.
Proof.
  eexists _, _, _.
  assert (run (get_images Sample.now Gallery.unknown_range_request)
              Sample.store
          = (Returned
               {| images := images Sample.blue_jay_response;
                  pagination := pagination Sample.blue_jay_response;
                  filters := Some {| Filters.timeRange := js "yesterday";
                                     Filters.species :=
                                       Some (js "Blue Jay") |} |},
             Sample.blue_jay_log)) as Hrun
    by (vm_compute; reflexivity).
  destruct (filters_echo_the_request _ _ _ _ _ Hrun) as [_ Hecho].
  destruct (Hecho _ eq_refl) as (Htoken & _ & Hwanted & _).
  split; [exact Hrun|]. split; [reflexivity|]. split_and!.
  - apply Htoken; [reflexivity|discriminate].
  - apply Hwanted; [reflexivity|discriminate].
  - reflexivity.
Defined.

(** ** Grouping and validity *)

(** X11.  Grouping by [image_id] gives an image a group exactly when some
    attribution references it; a group is never empty, it holds the
    attributions of that image in arrival order, and every attribution
    lands in the group of its own image. *)
Theorem grouping_by_image (attributions : list Attribution) :
  (∀ k, group_attributions attributions !! k = None
        ↔ ∀ attr, attr ∈ attributions → image_id attr ≠ k)
  ∧ (∀ k group, group_attributions attributions !! k = Some group →
                group ≠ []
                ∧ group = filter (λ attr, image_id attr = k) attributions)
  ∧ ∀ attr, attr ∈ attributions →
            ∃ group, group_attributions attributions !! image_id attr
                     = Some group
                     ∧ attr ∈ group.
Proof.
  split_and!.
  - intros k. rewrite group_attributions_lookup.
    destruct (filter _ attributions) as [|a g] eqn:Hg.
    + split; [|done]. intros _ attr Hattr Hk.
      by apply (filter_nil_not_elem_of _ _ attr Hg Hk).
    + split; [done|]. intros Hnone.
      assert (a ∈ filter (λ attr, image_id attr = k) attributions)
        as [Hk Ha]%list_elem_of_filter by (rewrite Hg; apply list_elem_of_here).
      by destruct (Hnone a Ha).
  - intros k group. rewrite group_attributions_lookup.
    destruct (filter _ attributions) as [|a g]; [done|]. by intros [= <-].
  - intros attr Hattr. rewrite group_attributions_lookup.
    assert (attr ∈ filter (λ a, image_id a = image_id attr) attributions)
      as Hin by (by apply list_elem_of_filter).
    destruct (filter _ attributions) as [|a g]; [by inversion Hin|eauto].
Qed.

(** X12.  A species label counts as valid exactly when it is present and
    holds at least one code unit that is not white space; a missing, empty
    or all-blank label is not valid. *)
Theorem valid_species_iff_visible label :
  valid_species label = true
  ↔ ∃ s c, label = Some s ∧ c ∈ s ∧ is_white_space c = false.
Proof.
  rewrite valid_species_spec. split.
  - intros (s & -> & Hnb). rewrite trim_blank in Hnb.
    apply not_Forall_Exists in Hnb; [|apply _].
    apply Exists_exists in Hnb as (c & Hc & Hws).
    exists s, c. split_and!; [done..|].
    apply not_true_is_false. intros Heq. apply Hws. simpl. by rewrite Heq.
  - intros (s & c & -> & Hc & Hws). exists s. split; [done|].
    rewrite trim_blank, Forall_forall. intros Hall.
    specialize (Hall c Hc). by rewrite Hws in Hall.
Qed.

(** ** [GET /images/:id] and [GET /images/:id/attributions] *)

#[global] Instance most_confident_first_trans : Transitive most_confident_first.
Proof. unfold most_confident_first. intros a b c ??. by eapply Qle_trans. Qed.

Lemma order_confidence_desc_sorted rows :
  StronglySorted most_confident_first (order_confidence_desc rows).
Proof.
  apply stable_sort_sorted; [apply _|..]; unfold most_confident_first;
    intros x y H.
  - by apply Qle_bool_iff.
  - apply Qlt_le_weak, Qnot_le_lt. intros Hle%Qle_bool_iff. congruence.
Qed.

Lemma unique_row (rows : list Image) img :
  NoDup (id <$> rows) → img ∈ rows →
  filter (λ row, id row = id img) rows = [img].
Proof.
  induction rows as [|row rows IH]; intros Hnd Hin; [by inversion Hin|].
  rewrite fmap_cons in Hnd. apply NoDup_cons in Hnd as [Hrow Hnd].
  rewrite filter_cons. apply elem_of_cons in Hin as [<-|Hin].
  - rewrite decide_True by done. f_equal.
    destruct (filter _ rows) as [|other ?] eqn:Hrows; [done|].
    assert (other ∈ filter (λ r, id r = id img) rows)
      as [Heq Hother]%list_elem_of_filter
      by (rewrite Hrows; apply list_elem_of_here).
    destruct Hrow. rewrite <-Heq. by apply list_elem_of_fmap_2.
  - rewrite decide_False; [by apply IH|].
    intros Heq. apply Hrow. rewrite Heq. by apply list_elem_of_fmap_2.
Qed.

(** X13.  When image identifiers are pairwise distinct, [/images/:id] for
    the identifier of a stored image returns that image with all of its
    attributions, most confident first; it queries the image, then its
    attributions, and nothing else. *)
Theorem existing_image_is_found store img :
  NoDup (id <$> images_table store) →
  img ∈ images_table store →
  ∃ attrs,
    run (get_image (id img)) store
    = (Returned (ImageFound {| image := img; attributions := attrs |}),
       [SelectImageSingle (id img); SelectAttributionsOf (id img)])
    ∧ attrs ≡ₚ attributions_of store (id img)
    ∧ StronglySorted most_confident_first attrs.
Proof.
  intros Hnd Hin.
  exists (order_confidence_desc (attributions_of store (id img))).
  split_and!.
  - unfold run, get_image, mbind, Db_bind, select_image_single,
      select_attributions_of, issue.
    by rewrite (unique_row _ _ Hnd Hin).
  - apply stable_sort_perm.
  - apply order_confidence_desc_sorted.
Qed.

Lemma existing_image_is_found_witness :
  ∃ attrs,
    run (get_image (js "A")) Gallery.store
    = (Returned (ImageFound {| image := Sample.A; attributions := attrs |}),
       [SelectImageSingle (js "A"); SelectAttributionsOf (js "A")])
    ∧ attrs ≡ₚ attributions_of Gallery.store (js "A")
    ∧ StronglySorted most_confident_first attrs.
Proof.
  apply (existing_image_is_found Gallery.store Sample.A).
  - apply (bool_decide_unpack _). vm_compute. exact I.
  - apply list_elem_of_here.
Defined.

(** X14.  Whenever [/images/:id/attributions] answers, it has issued the
    attribution query and no image query: the payload is the requested
    identifier with the attributions that reference it, most confident
    first, and an empty list, not a not-found payload, when none does, also
    for an identifier no image has. *)
Theorem image_attributions_listing store params_id payload log :
  run (get_image_attributions params_id) store = (Returned payload, log) →
  payload.1 = params_id
  ∧ log = [SelectAttributionsOf params_id]
  ∧ payload.2 ≡ₚ attributions_of store params_id
  ∧ StronglySorted most_confident_first payload.2
  ∧ (params_id ∉ image_id <$> attributions_table store → payload.2 = []).
Proof.
  unfold run, get_image_attributions, mbind, Db_bind, select_attributions_of,
    issue. simpl. intros [= <- <-]. simpl.
  split_and!; [done|done|apply stable_sort_perm
               |apply order_confidence_desc_sorted|].
  intros Hnone. fold (attributions_of store params_id).
  unfold attributions_of.
  destruct (filter _ (attributions_table store)) as [|attr ?] eqn:Hrows;
    [done|].
  assert (attr ∈ filter (λ a, image_id a = params_id)
                        (attributions_table store))
    as [Heq Hattr]%list_elem_of_filter
    by (rewrite Hrows; apply list_elem_of_here).
  destruct Hnone. rewrite <-Heq. by apply list_elem_of_fmap_2.
Qed.

Lemma image_attributions_listing_witness :
  (js "Z", @nil Attribution).1 = js "Z"
  ∧ [SelectAttributionsOf (js "Z")] = [SelectAttributionsOf (js "Z")]
  ∧ (js "Z", @nil Attribution).2 ≡ₚ attributions_of Gallery.store (js "Z")
  ∧ StronglySorted most_confident_first (js "Z", @nil Attribution).2
  ∧ (js "Z" ∉ image_id <$> attributions_table Gallery.store →
     (js "Z", @nil Attribution).2 = []).
Proof.
  apply (image_attributions_listing Gallery.store (js "Z")
           (js "Z", []) [SelectAttributionsOf (js "Z")]).
  vm_compute. reflexivity.
Defined.

(** X15.  Whenever [/images/:id] finds an image, the image carries the
    requested identifier and its [attributions] are exactly the list that
    [/images/:id/attributions] returns for the same identifier. *)
Theorem found_image_agrees_with_listing store params_id found log :
  run (get_image params_id) store = (Returned (ImageFound found), log) →
  id (image found) = params_id
  ∧ run (get_image_attributions params_id) store
    = (Returned (params_id, attributions found),
       [SelectAttributionsOf params_id]).
Proof.
  unfold run, get_image, get_image_attributions, mbind, Db_bind,
    select_image_single, select_attributions_of, issue.
  destruct (filter _ (images_table store)) as [|row [|??]] eqn:Hrows;
    simpl; [done| |done].
  intros [= <- _]. cbn [image attributions]. split; [|done].
  assert (row ∈ filter (λ img, id img = params_id) (images_table store))
    as [Heq _]%list_elem_of_filter
    by (rewrite Hrows; apply list_elem_of_here).
  done.
Qed.

Lemma found_image_agrees_with_listing_witness :
  id Sample.A = js "A"
  ∧ run (get_image_attributions (js "A")) Gallery.store
    = (Returned
         (js "A",
          [Sample.labelled (js "A") (js "Blue Jay") 0.9%Q;
           Sample.labelled (js "A") (js "  ") 0.6%Q;
           Sample.labelled (js "A") (js "Robin") 0.4%Q]),
       [SelectAttributionsOf (js "A")]).
Proof.
  apply (found_image_agrees_with_listing Gallery.store (js "A")
           {| image := Sample.A;
              attributions :=
                [Sample.labelled (js "A") (js "Blue Jay") 0.9%Q;
                 Sample.labelled (js "A") (js "  ") 0.6%Q;
                 Sample.labelled (js "A") (js "Robin") 0.4%Q] |}
           [SelectImageSingle (js "A"); SelectAttributionsOf (js "A")]).
  vm_compute. reflexivity.
Defined.

(** ** [GET /species] *)

Lemma sum_counts_perm counts counts' :
  counts ≡ₚ counts' → sum_counts counts = sum_counts counts'.
Proof.
  induction 1 as [|n l l' _ IH|n n' l|l l' l'' _ IH _ IH']; simpl;
    [done|by rewrite IH|lia|congruence].
Qed.

Lemma sum_counts_obj_set (acc : list (jsstring * Z)) k :
  sum_counts (obj_set acc k (num_or (obj_get acc k) 0 + 1)).*2
  = sum_counts acc.*2 + 1.
Proof.
  induction acc as [|[k' v'] acc IH]; [done|].
  cbn [obj_set obj_get].
  destruct (decide (k' = k)) as [->|Hne]; rewrite !fmap_cons.
  - cbn [sum_counts foldr snd]. unfold num_or. case_decide; lia.
  - cbn [sum_counts foldr snd]. fold (sum_counts acc.*2).
    fold (sum_counts (obj_set acc k (num_or (obj_get acc k) 0 + 1)).*2).
    rewrite IH. lia.
Qed.

Lemma sum_counts_fold acc labels :
  sum_counts (foldl tally_step acc labels).*2
  = sum_counts acc.*2
    + Z.of_nat (length (filter (λ label, valid_species label) labels)).
Proof.
  revert acc. induction labels as [|label labels IH]; intros acc.
  { cbn [foldl]. rewrite filter_nil. cbn [length]. lia. }
  cbn [foldl]. rewrite IH, filter_cons. unfold tally_step.
  destruct label as [s|].
  - destruct (valid_species (Some s)) eqn:Hs.
    + rewrite decide_True by done.
      rewrite sum_counts_obj_set. cbn [length]. lia.
    + by rewrite decide_False by (simpl; tauto).
  - by rewrite decide_False by (unfold valid_species; simpl; tauto).
Qed.

(** A pair is in the tally exactly when its label is valid, occurs among
    the rows, and comes with the number of its occurrences. *)
Lemma tally_elem_of labels k v :
  (k, v) ∈ tally labels
  ↔ valid_species (Some k) = true ∧ Some k ∈ labels
    ∧ v = occurrences labels k.
Proof.
  split.
  - intros Hin. pose proof (tally_entry _ _ _ Hin) as [Hnb ->].
    apply (list_elem_of_fmap_2 fst) in Hin.
    apply tally_keys in Hin as [Hin|[? ?]]; [by inversion Hin|done].
  - intros (Hvalid & Hin & ->).
    assert (k ∈ (tally labels).*1) as Hkey
      by (apply tally_keys; eauto).
    apply list_elem_of_fmap in Hkey as ([k' v'] & -> & Hkv).
    pose proof (tally_entry _ _ _ Hkv) as [_ ->]. done.
Qed.

Lemma occurrences_positive labels k : Some k ∈ labels → 1 ≤ occurrences labels k.
Proof.
  intros Hin. unfold occurrences.
  assert (Some k ∈ filter (λ label, label = Some k) labels) as Hfiltered
    by (by apply list_elem_of_filter).
  destruct (filter _ labels); [by inversion Hfiltered|simpl; lia].
Qed.

Lemma valid_labels_length (rows : list Attribution) :
  length (filter (λ label, valid_species label) (species <$> rows))
  = length (filter (λ attr, valid_species (species attr)) rows).
Proof.
  induction rows as [|attr rows IH]; [done|].
  rewrite fmap_cons, !filter_cons.
  destruct (decide (valid_species (species attr))); simpl; by rewrite IH.
Qed.

Lemma entry_counts (pairs : list (jsstring * Z)) :
  Entry.count <$> (entry_of <$> (as_number <$> pairs)) = Num <$> pairs.*2.
Proof. induction pairs as [|[k n] pairs IH]; [done|]. by rewrite !fmap_cons, IH. Qed.

Lemma entry_species (pairs : list (jsstring * Z)) :
  Entry.species <$> (entry_of <$> (as_number <$> pairs)) = pairs.*1.
Proof. induction pairs as [|[k n] pairs IH]; [done|]. by rewrite !fmap_cons, IH. Qed.

(** X21.  For every attribution store whose labels name no member that an
    object literal inherits, [/species] lists no blank or missing label,
    each listed label comes with the number of attributions in the whole
    table that carry exactly that label, and the entries are ordered by
    count descending; every non-blank label of the table is listed, and
    listed once. *)
Theorem plain_labels_are_counted store :
  plain_labels store →
  ∃ entries,
    run get_species store = (Returned entries, [SelectSpecies])
    ∧ (∀ entry, entry ∈ entries →
         trim (Entry.species entry) ≠ []
         ∧ Entry.count entry = Num (label_count store (Entry.species entry)))
    ∧ StronglySorted most_counted_first entries
    ∧ (∀ attr label,
         attr ∈ attributions_table store → species attr = Some label →
         trim label ≠ [] →
         ∃ entry, entry ∈ entries ∧ Entry.species entry = label)
    ∧ NoDup (Entry.species <$> entries).
Proof.
  intros Hplain. eexists. split; [apply get_species_run|].
  pose proof (species_entries_perm store Hplain) as Hperm.
  set (labels := species <$> attributions_table store) in *.
  split_and!.
  - intros entry Hentry. rewrite Hperm in Hentry.
    apply list_elem_of_fmap in Hentry as (pair & -> & Hpair).
    apply list_elem_of_fmap in Hpair as ([k v] & -> & Hkv).
    cbn [entry_of as_number Entry.species Entry.count fst snd].
    apply tally_entry in Hkv as [? ->].
    split; [done|]. f_equal. apply occurrences_species.
  - rewrite species_counts_plain by by apply plain_labels_species.
    apply Array_sort_by_count_sorted, Forall_forall. intros entry Hentry.
    rewrite Object_entries_perm in Hentry.
    apply list_elem_of_fmap in Hentry as (pair & -> & Hpair).
    apply list_elem_of_fmap in Hpair as ([k v] & -> & _). by exists v.
  - intros attr label Hattr Hlabel Hnb.
    assert (label ∈ (tally labels).*1) as Hkey.
    { apply tally_keys. right. split.
      - apply valid_species_spec. eauto.
      - rewrite <-Hlabel. by apply list_elem_of_fmap_2. }
    apply list_elem_of_fmap in Hkey as ([k v] & -> & Hkv).
    exists (entry_of (as_number (k, v))). split; [|done].
    rewrite Hperm. by do 2 apply list_elem_of_fmap_2.
  - rewrite Hperm, entry_species. apply tally_NoDup, NoDup_nil_2.
Qed.

Lemma plain_labels_are_counted_witness :
  ∃ entries,
    run get_species Gallery.store = (Returned entries, [SelectSpecies])
    ∧ (∀ entry, entry ∈ entries →
         trim (Entry.species entry) ≠ []
         ∧ Entry.count entry
           = Num (label_count Gallery.store (Entry.species entry)))
    ∧ StronglySorted most_counted_first entries
    ∧ (∀ attr label,
         attr ∈ attributions_table Gallery.store → species attr = Some label →
         trim label ≠ [] →
         ∃ entry, entry ∈ entries ∧ Entry.species entry = label)
    ∧ NoDup (Entry.species <$> entries).
Proof.
  apply (plain_labels_are_counted Gallery.store).
  apply (bool_decide_unpack _). vm_compute. exact I.
Defined.

(** X16.  When the labels name no inherited member, every count of the
    [/species] listing is a number that is at least 1, and the counts add
    up to the number of attributions in the table whose label is valid:
    each such attribution is counted once, under its own label. *)
Theorem species_counts_add_up store :
  plain_labels store →
  ∃ entries counts,
    run get_species store = (Returned entries, [SelectSpecies])
    ∧ Entry.count <$> entries ≡ₚ Num <$> counts
    ∧ sum_counts counts = valid_attribution_count store
    ∧ Forall (λ n, 1 ≤ n) counts.
Proof.
  intros Hplain.
  exists (Array_sort by_count_desc
            (entry_of <$> Object_entries
               (species_counts (species <$> attributions_table store)))),
         (tally (species <$> attributions_table store)).*2.
  split; [apply get_species_run|]. split_and!.
  - by rewrite (species_entries_perm store Hplain), entry_counts.
  - unfold tally. rewrite sum_counts_fold, valid_labels_length.
    unfold valid_attribution_count. simpl. lia.
  - apply Forall_forall. intros n Hn.
    apply list_elem_of_fmap in Hn as ([k v] & -> & Hkv).
    apply tally_elem_of in Hkv as (_ & Hin & ->).
    by apply occurrences_positive.
Qed.

Lemma species_counts_add_up_witness :
  ∃ entries counts,
    run get_species Gallery.store = (Returned entries, [SelectSpecies])
    ∧ Entry.count <$> entries ≡ₚ Num <$> counts
    ∧ sum_counts counts = valid_attribution_count Gallery.store
    ∧ Forall (λ n, 1 ≤ n) counts.
Proof.
  apply (species_counts_add_up Gallery.store).
  apply (bool_decide_unpack _). vm_compute. exact I.
Defined.

(** X17.  When the labels name no inherited member, the [/species] listing
    does not depend on the order in which the store returns the attribution
    rows: two tables with the same rows give the same entries, up to the
    order of the entries. *)
Theorem species_rows_order_is_irrelevant store store' :
  plain_labels store →
  attributions_table store ≡ₚ attributions_table store' →
  ∃ entries entries',
    run get_species store = (Returned entries, [SelectSpecies])
    ∧ run get_species store' = (Returned entries', [SelectSpecies])
    ∧ entries ≡ₚ entries'.
Proof.
  intros Hplain Hperm.
  assert (plain_labels store') as Hplain'
    by (unfold plain_labels in *; by rewrite <-Hperm).
  eexists _, _.
  split; [apply get_species_run|]. split; [apply get_species_run|].
  rewrite !species_entries_perm by done.
  set (labels := species <$> attributions_table store).
  set (labels' := species <$> attributions_table store').
  assert (labels ≡ₚ labels') as Hlabels by (by apply fmap_Permutation).
  do 2 apply fmap_Permutation.
  apply NoDup_Permutation.
  - eapply NoDup_fmap_1, tally_NoDup, NoDup_nil_2.
  - eapply NoDup_fmap_1, tally_NoDup, NoDup_nil_2.
  - intros [k v]. rewrite !tally_elem_of. unfold occurrences.
    by rewrite Hlabels.
Qed.

Lemma species_rows_order_is_irrelevant_witness :
  ∃ entries entries',
    run get_species Gallery.store = (Returned entries, [SelectSpecies])
    ∧ run get_species
        {| images_table := [];
           attributions_table := reverse (attributions_table Gallery.store) |}
      = (Returned entries', [SelectSpecies])
    ∧ entries ≡ₚ entries'.
Proof.
  apply (species_rows_order_is_irrelevant Gallery.store
           {| images_table := [];
              attributions_table :=
                reverse (attributions_table Gallery.store) |}).
  - apply (bool_decide_unpack _). vm_compute. exact I.
  - vm_compute.
    apply perm_trans with
      [Sample.labelled (js "A") (js "  ") 0.6%Q;
       Sample.labelled (js "A") (js "Robin") 0.4%Q;
       Sample.labelled (js "A") (js "Blue Jay") 0.9%Q].
    + apply perm_trans with
        [Sample.labelled (js "A") (js "Robin") 0.4%Q;
         Sample.labelled (js "A") (js "  ") 0.6%Q;
         Sample.labelled (js "A") (js "Blue Jay") 0.9%Q].
      * apply perm_skip, perm_swap.
      * apply perm_swap.
    + apply perm_skip, perm_swap.
Defined.

(** ** The earlier revision of [GET /images] *)

Lemma get_images_unfiltered_nonempty query store img rest :
  images_page None (offset_of query) (offset_of query + limit_of query - 1)
              store = PgData (img :: rest) →
  let fetched := img :: rest in
  run (get_images_unfiltered query) store
  = (Returned
       {| images :=
            enrich (group_attributions
                      (attributions_in (id <$> fetched) store)) <$> fetched;
          pagination :=
            {| page := page_of query; limit := limit_of query;
               total := window_count None store;
               totalPages := ceil_div (window_count None store)
                                      (limit_of query) |};
          filters := None |},
     [CountImages None;
      SelectImages None (offset_of query)
                   (offset_of query + limit_of query - 1);
      SelectAttributionsIn (id <$> fetched)]).
Proof.
  intros H.
  unfold run, get_images_unfiltered, mbind, Db_bind, count_images,
    select_images, issue.
  by rewrite H.
Qed.

Lemma get_images_unfiltered_empty query store :
  images_page None (offset_of query) (offset_of query + limit_of query - 1)
              store = PgData [] →
  run (get_images_unfiltered query) store
  = (Returned {| images := [];
                 pagination := {| page := page_of query;
                                  limit := limit_of query;
                                  total := 0; totalPages := 0 |};
                 filters := None |},
     [CountImages None;
      SelectImages None (offset_of query)
                   (offset_of query + limit_of query - 1)]).
Proof.
  intros H.
  unfold run, get_images_unfiltered, mbind, Db_bind, count_images,
    select_images, issue.
  by rewrite H.
Qed.

(** X18.  For a request whose time range resolves to no lower bound, the
    current [/images] handler issues the same queries as the earlier
    revision and reports the same pagination; the earlier revision returns
    every image of the fetched page, and the current one returns a
    subsequence of those entries, each with the same attributions. *)
Theorem current_handler_filters_earlier_revision now query store resp log :
  dateThreshold now (timeRange_of query) = None →
  run (get_images now query) store = (Returned resp, log) →
  ∃ earlier fetched,
    run (get_images_unfiltered query) store = (Returned earlier, log)
    ∧ fetched_page now query store = PgData fetched
    ∧ image <$> images earlier = fetched
    ∧ images resp `sublist_of` images earlier
    ∧ pagination resp = pagination earlier.
Proof.
  intros Hall Hrun. unfold fetched_page. rewrite Hall.
  destruct (images_page None (offset_of query)
              (offset_of query + limit_of query - 1) store)
    as [[|first rest]|e] eqn:Hpage.
  - pose proof Hpage as Hpage'. rewrite <-Hall in Hpage'.
    rewrite (get_images_empty _ _ _ Hpage'), Hall in Hrun.
    injection Hrun as <- <-.
    eexists _, []. split; [by apply get_images_unfiltered_empty|].
    by split_and!.
  - pose proof Hpage as Hpage'. rewrite <-Hall in Hpage'.
    rewrite (get_images_nonempty _ _ _ _ _ Hpage'), Hall in Hrun.
    injection Hrun as <- <-.
    eexists _, (first :: rest).
    split; [by apply get_images_unfiltered_nonempty|].
    cbn [images pagination].
    split_and!; [done|apply image_enrich| |done].
    apply fmap_sublist, sublist_filter.
  - rewrite <-Hall in Hpage.
    by rewrite (get_images_thrown _ _ _ _ Hpage) in Hrun.
Qed.

Lemma current_handler_filters_earlier_revision_witness :
  ∃ earlier fetched,
    run (get_images_unfiltered Sample.blue_jay_request) Sample.store
      = (Returned earlier, Sample.blue_jay_log)
    ∧ fetched_page Sample.now Sample.blue_jay_request Sample.store
      = PgData fetched
    ∧ image <$> images earlier = fetched
    ∧ images Sample.blue_jay_response `sublist_of` images earlier
    ∧ pagination Sample.blue_jay_response = pagination earlier.
Proof.
  apply (current_handler_filters_earlier_revision Sample.now
           Sample.blue_jay_request Sample.store Sample.blue_jay_response
           Sample.blue_jay_log).
  - vm_compute. reflexivity.
  - vm_compute. reflexivity.
Defined.

(** ** Narrowing a request *)

Lemma filter_sublist_impl {A} (P Q : A → Prop)
    `{!∀ x, Decision (P x), !∀ x, Decision (Q x)} (l : list A) :
  (∀ x, x ∈ l → P x → Q x) → filter P l `sublist_of` filter Q l.
Proof.
  induction l as [|x l IH]; intros Himpl; [done|].
  rewrite !filter_cons.
  assert (filter P l `sublist_of` filter Q l) as Hrec.
  { apply IH. intros y Hy. apply Himpl. by apply list_elem_of_further. }
  destruct (decide (P x)) as [HP|_].
  - rewrite decide_True by (apply Himpl; [apply list_elem_of_here|done]).
    by apply sublist_skip.
  - destruct (decide (Q x)); [by apply sublist_cons|done].
Qed.

(** X19.  The time ranges are nested: the images within one day are among
    those within seven days, those among the images within 30, 90 and 365
    days, and all of them among the images of [All]; the window counts grow
    in the same order. *)
Theorem time_windows_are_nested now store :
  let window token := images_in_window (dateThreshold now token) store in
  let count token := window_count (dateThreshold now token) store in
  (window (js "1D") `sublist_of` window (js "7D")
   ∧ window (js "7D") `sublist_of` window (js "1M")
   ∧ window (js "1M") `sublist_of` window (js "3M")
   ∧ window (js "3M") `sublist_of` window (js "1YR")
   ∧ window (js "1YR") `sublist_of` window (js "All"))
  ∧ count (js "1D") ≤ count (js "7D") ≤ count (js "1M")
  ∧ count (js "1M") ≤ count (js "3M") ≤ count (js "1YR")
  ∧ count (js "1YR") ≤ count (js "All").
Proof.
  intros window count.
  assert (window (js "1D") `sublist_of` window (js "7D")
          ∧ window (js "7D") `sublist_of` window (js "1M")
          ∧ window (js "1M") `sublist_of` window (js "3M")
          ∧ window (js "3M") `sublist_of` window (js "1YR")
          ∧ window (js "1YR") `sublist_of` window (js "All"))
    as (H1 & H2 & H3 & H4 & H5).
  { unfold window, images_in_window.
    split_and!; apply filter_sublist_impl; intros img _;
      rewrite !Is_true_true; unfold in_window; simpl;
      rewrite ?bool_decide_eq_true; lia. }
  split; [done|]. unfold count, window_count.
  apply sublist_length in H1, H2, H3, H4, H5.
  fold (window (js "1D")) (window (js "7D")) (window (js "1M"))
       (window (js "3M")) (window (js "1YR")) (window (js "All")).
  lia.
Qed.

Lemma keep_image_without_filter byImage wanted speciesFilter img :
  speciesFilter = None ∨ speciesFilter = Some [] →
  keep_image byImage wanted img = true →
  keep_image byImage speciesFilter img = true.
Proof.
  unfold keep_image. intros Hnone.
  destruct (byImage !! id img) as [attrs|]; [|done].
  destruct (negb _); [done|]. by destruct Hnone as [->| ->].
Qed.

(** X20.  Adding a species filter to a request only removes images: for
    the same page, page size and time range, the images returned with a
    filter are a subsequence of those returned without one, and the
    pagination is the same. *)
Theorem species_filter_only_removes now query narrowed store resp resp'
    log log' :
  page_of narrowed = page_of query →
  limit_of narrowed = limit_of query →
  timeRange_of narrowed = timeRange_of query →
  (ImagesQuery.species query = None ∨ ImagesQuery.species query = Some []) →
  run (get_images now query) store = (Returned resp, log) →
  run (get_images now narrowed) store = (Returned resp', log') →
  images resp' `sublist_of` images resp
  ∧ pagination resp' = pagination resp.
Proof.
  intros Hp Hl Ht Hnone Hrun Hrun'.
  assert (offset_of narrowed = offset_of query) as Ho
    by (unfold offset_of; by rewrite Hp, Hl).
  destruct (images_page (dateThreshold now (timeRange_of query))
              (offset_of query) (offset_of query + limit_of query - 1) store)
    as [[|first rest]|e] eqn:Hpage.
  - pose proof Hpage as Hpage'. rewrite <-Ht, <-Ho, <-Hl in Hpage'.
    rewrite (get_images_empty _ _ _ Hpage) in Hrun.
    rewrite (get_images_empty _ _ _ Hpage') in Hrun'.
    injection Hrun as <- _. injection Hrun' as <- _.
    cbn [images pagination]. by rewrite Hp, Hl.
  - pose proof Hpage as Hpage'. rewrite <-Ht, <-Ho, <-Hl in Hpage'.
    rewrite (get_images_nonempty _ _ _ _ _ Hpage) in Hrun.
    rewrite (get_images_nonempty _ _ _ _ _ Hpage') in Hrun'.
    injection Hrun as <- _. injection Hrun' as <- _.
    cbn [images pagination]. rewrite Hp, Hl, Ht. split; [|done].
    apply fmap_sublist, filter_sublist_impl. intros img _.
    rewrite !Is_true_true. by apply keep_image_without_filter.
  - by rewrite (get_images_thrown _ _ _ _ Hpage) in Hrun.
Qed.

Lemma species_filter_only_removes_witness :
  images Sample.blue_jay_response
    `sublist_of`
    [{| image := Sample.B;
        attributions := [Sample.labelled (js "B") (js "Cardinal") 0.8%Q] |};
     {| image := Sample.C;
        attributions := [Sample.labelled (js "C") (js "Robin") 0.7%Q] |};
     {| image := Sample.A;
        attributions := [Sample.labelled (js "A") (js "Blue Jay") 0.9%Q] |}]
  ∧ {| page := 1; limit := 20; total := 3; totalPages := 1 |}
    = {| page := 1; limit := 20; total := 3; totalPages := 1 |}.
Proof.
  apply (species_filter_only_removes Sample.now
           (Sample.request None None None None) Sample.blue_jay_request
           Sample.full_store
           {| images :=
                [{| image := Sample.B;
                    attributions :=
                      [Sample.labelled (js "B") (js "Cardinal") 0.8%Q] |};
                 {| image := Sample.C;
                    attributions :=
                      [Sample.labelled (js "C") (js "Robin") 0.7%Q] |};
                 {| image := Sample.A;
                    attributions :=
                      [Sample.labelled (js "A") (js "Blue Jay") 0.9%Q] |}];
              pagination :=
                {| page := 1; limit := 20; total := 3; totalPages := 1 |};
              filters := Some {| Filters.timeRange := js "All";
                                 Filters.species := None |} |}
           {| images := images Sample.blue_jay_response;
              pagination :=
                {| page := 1; limit := 20; total := 3; totalPages := 1 |};
              filters := filters Sample.blue_jay_response |}
           [CountImages None; SelectImages None 0 19;
            SelectAttributionsIn [js "B"; js "C"; js "A"]]
           [CountImages None; SelectImages None 0 19;
            SelectAttributionsIn [js "B"; js "C"; js "A"]]).
  - vm_compute. reflexivity.
  - vm_compute. reflexivity.
  - vm_compute. reflexivity.
  - left. reflexivity.
  - vm_compute. reflexivity.
  - vm_compute. reflexivity.
Defined.
